(** * A shallow embedding of the Go [markdown] package

    The repository carries two generations of the same library:

    - the package with a flavor and a color flag ([New(flavor, useColor)]),
      whose methods guard against empty input; it is embedded in
      [Module Guarded];
    - the earlier package that records every heading for a table of
      contents ([New()], [TableOfContents], [UnorderedList], ...), whose
      methods carry no guard; it is embedded in [Module Logged].

    Both write into a [strings.Builder].  A Go string is a sequence of
    bytes, hence a [string] here; a Go [int] is a [Z]; slices are lists and
    slice indices are [nat]; [map[string]T] is a [gmap string T].  Methods
    take a pointer receiver, so each one is a computation over the
    receiver's state that either returns or panics. *)

From Stdlib Require Import ZArith Ascii String List Lia.
From stdpp Require Import base strings list gmap pretty.

Local Open Scope Z_scope.

(** ** The part of the Go runtime and standard library that the package uses *)

Module Go.

(** Characters that a Rocq string literal cannot spell. *)
Definition nl : string := String "010"%char EmptyString.
Definition dquote : string := String "034"%char EmptyString.

(** [strings.Repeat].  Go panics on a negative count; both call sites of
    the package pass a count that is at least zero (a clamped level, a
    slice index), see [level_in_range]. *)
Fixpoint repeat_nat (s : string) (n : nat) : string :=
  match n with
  | O => EmptyString
  | S n' => s +:+ repeat_nat s n'
  end.

Definition Repeat (s : string) (count : Z) : string :=
  repeat_nat s (Z.to_nat count).

(** [strings.Join]. *)
Fixpoint Join (elems : list string) (sep : string) : string :=
  match elems with
  | [] => EmptyString
  | [e] => e
  | e :: rest => e +:+ sep +:+ Join rest sep
  end.

(** [strings.ReplaceAll] for a one-byte pattern, which is what every call
    site passes (one ASCII character): the non-overlapping matches of a
    one-byte pattern are the bytes equal to it. *)
Fixpoint ReplaceAll (s : string) (old : ascii) (new : string) : string :=
  match s with
  | EmptyString => EmptyString
  | String c s' =>
      (if Ascii.eqb c old then new else String c EmptyString)
        +:+ ReplaceAll s' old new
  end.

(** The verb [%d] of [fmt.Sprintf]. *)
Definition Itoa (n : Z) : string := pretty n.

(** *** Computations over a receiver

    A method call on a receiver of type [R] ends in one of two ways: it
    returns a value, or it panics.  Either way the writes made so far
    stay in the receiver. *)
Inductive result (R A : Type) : Type :=
| Ok (a : A) (s : R)
| Panic (s : R).
Arguments Ok {R A} a s.
Arguments Panic {R A} s.

Definition M (R A : Type) : Type := R -> result R A.

Definition ret {R A} (a : A) : M R A := fun s => Ok a s.

Definition bind {R A B} (m : M R A) (k : A -> M R B) : M R B :=
  fun s =>
    match m s with
    | Ok a s' => k a s'
    | Panic s' => Panic s'
    end.

(** The run-time panic of an index out of range. *)
Definition panic {R A} : M R A := fun s => Panic s.

(** [l[i]]. *)
Definition index {R A} (l : list A) (i : nat) : M R A :=
  match l !! i with
  | Some a => ret a
  | None => panic
  end.

(** [for i, x := range l { body }], entered at index [i]. *)
Fixpoint for_range {R A} (body : nat -> A -> M R unit) (i : nat)
    (l : list A) : M R unit :=
  match l with
  | [] => ret tt
  | x :: l' => bind (body i x) (fun _ => for_range body (S i) l')
  end.

Definition range {R A} (l : list A) (body : nat -> A -> M R unit)
    : M R unit :=
  for_range body 0%nat l.

(** The same loop when its body reassigns a local variable [acc]. *)
Fixpoint range_with {R A B} (l : list A) (acc : B)
    (body : B -> A -> M R B) : M R B :=
  match l with
  | [] => ret acc
  | x :: l' => bind (body acc x) (fun acc' => range_with l' acc' body)
  end.

(** The receiver after the call, and the value if it returned. *)
Definition after {R A} (r : result R A) : R :=
  match r with Ok _ s => s | Panic s => s end.

Definition returned {R A} (r : result R A) : option A :=
  match r with Ok a _ => Some a | Panic _ => None end.

End Go.

Declare Scope go_scope.
Delimit Scope go_scope with go.
Notation "x <- m ;; k" := (Go.bind m (fun x => k))
  (at level 100, m at next level, right associativity) : go_scope.
Notation "m ;; k" := (Go.bind m (fun _ => k))
  (at level 100, right associativity) : go_scope.

Local Open Scope go_scope.

(** ** The package with a flavor and a color flag *)

Module Guarded.
Import Go.

(** Flavor constants for different Markdown dialects. *)
Definition StandardMarkdown : Z := 0.
Definition GitHubMarkdown : Z := 1.
Definition JupyterMarkdown : Z := 2.

(** [type Markdown struct]; [content] holds the bytes accumulated in the
    [strings.Builder]. *)
Record Markdown : Type := mkMarkdown {
  content : string;
  flavor : Z;
  useColor : bool
}.

Definition New (flavor : Z) (useColor : bool) : Markdown :=
  mkMarkdown EmptyString flavor useColor.

Abbreviation M := (Go.M Markdown).

(** [md.content.WriteString(s)]. *)
Definition WriteString (s : string) : M unit :=
  fun md => Ok tt (mkMarkdown (content md +:+ s) (flavor md) (useColor md)).

Definition FrontMatter (metadata : gmap string string) : M unit :=
  WriteString ("---" +:+ nl) ;;
  let keys := ["title"; "author"; "date"] in
  range keys (fun _ key =>
    match metadata !! key with
    | Some value =>
        WriteString (key +:+ ": " +:+ dquote +:+ value +:+ dquote +:+ nl)
    | None => ret tt
    end) ;;
  WriteString ("---" +:+ nl +:+ nl).

Definition Heading (level : Z) (text id attributes : string) : M unit :=
  let level := if (level <? 1)%Z || (level >? 6)%Z then 1%Z else level in
  if String.eqb text EmptyString then ret tt else
  let header := Repeat "#" level +:+ " " +:+ text in
  let header :=
    if negb (String.eqb id EmptyString)
    then header +:+ " {#" +:+ id +:+ "}" else header in
  let header :=
    if negb (String.eqb attributes EmptyString)
    then header +:+ " {" +:+ attributes +:+ "}" else header in
  WriteString (header +:+ nl +:+ nl).

(** The [switch] of [ApplyFormatting]. *)
Definition format_case (format text : string) : string :=
  if String.eqb format "strikethrough" then "~~" +:+ text +:+ "~~"
  else if String.eqb format "bold" then "**" +:+ text +:+ "**"
  else if String.eqb format "italic" then "_" +:+ text +:+ "_"
  else if String.eqb format "underline" then "<u>" +:+ text +:+ "</u>"
  else if String.eqb format "subscript" then "<sub>" +:+ text +:+ "</sub>"
  else if String.eqb format "superscript" then "<sup>" +:+ text +:+ "</sup>"
  else if String.eqb format "code" then "`" +:+ text +:+ "`"
  else text.

(** [for i := len(formats) - 1; i >= 0; i--], entered with [i = n - 1];
    at [n = 0] the index is [-1] and the loop is left. *)
Fixpoint ApplyFormatting_from (formats : list string) (n : nat)
    (text : string) : M string :=
  match n with
  | O => ret text
  | S i =>
      format <- index formats i ;;
      ApplyFormatting_from formats i (format_case format text)
  end.

Definition ApplyFormatting (text : string) (formats : list string)
    : M string :=
  ApplyFormatting_from formats (length formats) text.

Definition Paragraph (text : string) (formats : list string) : M unit :=
  if String.eqb text EmptyString then ret tt else
  formatted <- ApplyFormatting text formats ;;
  WriteString (formatted +:+ nl +:+ nl).

Definition CodeBlock (language code : string) : M unit :=
  if String.eqb code EmptyString then ret tt else
  WriteString ("```" +:+ language +:+ nl +:+ code +:+ nl +:+ "```"
               +:+ nl +:+ nl).

Definition ReferenceLink (label text url : string) : M unit :=
  if String.eqb label EmptyString || String.eqb text EmptyString
     || String.eqb url EmptyString then ret tt else
  WriteString ("[" +:+ label +:+ "]: " +:+ text +:+ nl) ;;
  WriteString ("[" +:+ text +:+ "](" +:+ url +:+ ")" +:+ nl +:+ nl).

Definition Image (altText url : string) : M unit :=
  if String.eqb altText EmptyString || String.eqb url EmptyString
  then ret tt else
  WriteString ("![" +:+ altText +:+ "](" +:+ url +:+ ")" +:+ nl +:+ nl).

Definition List (items : list string) (isOrdered : bool) : M unit :=
  if Nat.eqb (length items) 0 then ret tt else
  range items (fun i item =>
    if isOrdered
    then WriteString (Itoa (Z.of_nat i + 1)%Z +:+ ". " +:+ item +:+ nl)
    else WriteString ("- " +:+ item +:+ nl)) ;;
  WriteString nl.

Definition NestedList (nestedItems : list (list string)) (isOrdered : bool)
    : M unit :=
  if Nat.eqb (length nestedItems) 0 then ret tt else
  range nestedItems (fun i items =>
    if isOrdered
    then range items (fun _ item =>
           WriteString (Itoa (Z.of_nat i + 1)%Z +:+ ". " +:+ item +:+ nl))
    else range items (fun j item =>
           if Nat.eqb j 0
           then WriteString ("- " +:+ item +:+ nl)
           else WriteString ("  - " +:+ item +:+ nl))) ;;
  WriteString nl.

(** The [switch] that builds the alignment line of [Table]. *)
Definition align_case (a : string) : string :=
  if String.eqb a "left" then ":---|"
  else if String.eqb a "center" then ":---:|"
  else if String.eqb a "right" then "---:|"
  else "---|".

Definition Table (headers : list string) (rows : list (list string))
    (align : list string) : M unit :=
  if Nat.eqb (length headers) 0 || Nat.eqb (length rows) 0
  then ret tt else
  let headerLine := "| " +:+ Join headers " | " +:+ " |" +:+ nl in
  let alignment :=
    foldl (fun alignment a => alignment +:+ align_case a) "|" align in
  WriteString (headerLine +:+ alignment +:+ nl) ;;
  range rows (fun _ row =>
    if negb (Nat.eqb (length row) (length headers)) then ret tt else
    WriteString ("| " +:+ Join row " | " +:+ " |" +:+ nl)) ;;
  WriteString nl.

Definition Blockquote (text : string) : M unit :=
  if String.eqb text EmptyString then ret tt else
  WriteString ("> " +:+ text +:+ nl +:+ nl).

Definition HorizontalRule : M unit :=
  WriteString ("---" +:+ nl +:+ nl).

Definition Footnote (label text : string) : M unit :=
  if String.eqb label EmptyString || String.eqb text EmptyString
  then ret tt else
  WriteString ("[" +:+ label +:+ "]: " +:+ text
               +:+ " [Return to text](#fn-" +:+ label +:+ "-back)" +:+ nl).

Definition MultiLineFootnote (label : string) (lines : list string)
    : M unit :=
  if String.eqb label EmptyString || Nat.eqb (length lines) 0
  then ret tt else
  WriteString ("[" +:+ label +:+ "]: ") ;;
  range lines (fun _ line => WriteString (line +:+ nl)) ;;
  WriteString ("[Return to text](#fn-" +:+ label +:+ "-back)"
               +:+ nl +:+ nl).

Record OrderedDefinition : Type := mkOrderedDefinition {
  term : string;
  definitions : list string
}.

(** [definitions[k]] on a map of slices: the nil slice when [k] is absent. *)
Definition DefinitionList (definitions_ : gmap string (list string))
    : M unit :=
  if Nat.eqb (size definitions_) 0 then ret tt else
  let orderedDefs :=
    [ mkOrderedDefinition "Term 1" (default [] (definitions_ !! "Term 1"));
      mkOrderedDefinition "Term 2" (default [] (definitions_ !! "Term 2")) ]
  in
  range orderedDefs (fun _ def =>
    if String.eqb (term def) EmptyString
       || Nat.eqb (length (definitions def)) 0
    then ret tt else
    WriteString (term def +:+ nl) ;;
    range (definitions def) (fun _ definition =>
      WriteString (": " +:+ definition +:+ nl)) ;;
    WriteString nl).

(** [specialChars]: the raw literal holds two backslashes, then the
    interpreted literal. *)
Definition specialChars : string := "\\" +:+ "`*_{[]}()#+-.!".

Definition Escape (text : string) : M string :=
  range_with (list_ascii_of_string specialChars) text (fun text char =>
    ret (ReplaceAll text char ("\" +:+ String char EmptyString))).

Definition CustomDiv (className content_ : string) : M unit :=
  if String.eqb content_ EmptyString then ret tt else
  WriteString ("::: " +:+ className +:+ nl +:+ content_ +:+ nl +:+ ":::"
               +:+ nl +:+ nl).

Definition TaskList (items : list string) (checked : list bool) : M unit :=
  if Nat.eqb (length items) 0 then ret tt else
  range items (fun i item =>
    if String.eqb item EmptyString then ret tt else
    check <- (if Nat.ltb i (length checked)
              then c <- index checked i ;; ret (if c : bool then "x" else " ")
              else ret " ") ;;
    WriteString ("- [" +:+ check +:+ "] " +:+ item +:+ nl)) ;;
  WriteString nl.

Definition MermaidDiagram (diagram : string) : M unit :=
  if String.eqb diagram EmptyString then ret tt else
  WriteString ("```mermaid" +:+ nl +:+ diagram +:+ nl +:+ "```"
               +:+ nl +:+ nl).

Definition MathBlock (equation : string) : M unit :=
  if String.eqb equation EmptyString then ret tt else
  WriteString ("$$" +:+ nl +:+ equation +:+ nl +:+ "$$" +:+ nl +:+ nl).

Definition Underline (text : string) : M string :=
  ret ("<u>" +:+ text +:+ "</u>").

Definition Subscript (text : string) : M string :=
  ret ("<sub>" +:+ text +:+ "</sub>").

Definition Superscript (text : string) : M string :=
  ret ("<sup>" +:+ text +:+ "</sup>").

Definition ColorText (text color : string) : M string :=
  fun md =>
    if useColor md
    then ret ("<span style=" +:+ dquote +:+ "color:" +:+ color +:+ dquote
              +:+ ">" +:+ text +:+ "</span>") md
    else ret text md.

Definition GetContent : M string :=
  fun md => Ok (content md) md.

Definition ToHTML : M string :=
  c <- GetContent ;;
  ret ("<html>" +:+ ReplaceAll c "010"%char "<br>" +:+ "</html>").

(** One call of the API on the document, with its arguments.  A value
    that a call returns is dropped by [exec]. *)
Inductive Call : Type :=
| CFrontMatter (metadata : gmap string string)
| CHeading (level : Z) (text id attributes : string)
| CApplyFormatting (text : string) (formats : list string)
| CParagraph (text : string) (formats : list string)
| CCodeBlock (language code : string)
| CReferenceLink (label text url : string)
| CImage (altText url : string)
| CList (items : list string) (isOrdered : bool)
| CNestedList (nestedItems : list (list string)) (isOrdered : bool)
| CTable (headers : list string) (rows : list (list string))
    (align : list string)
| CBlockquote (text : string)
| CHorizontalRule
| CFootnote (label text : string)
| CMultiLineFootnote (label : string) (lines : list string)
| CDefinitionList (definitions_ : gmap string (list string))
| CEscape (text : string)
| CCustomDiv (className content_ : string)
| CTaskList (items : list string) (checked : list bool)
| CMermaidDiagram (diagram : string)
| CMathBlock (equation : string)
| CUnderline (text : string)
| CSubscript (text : string)
| CSuperscript (text : string)
| CColorText (text color : string)
| CToHTML
| CGetContent.

Definition drop {A} (m : M A) : M unit := m ;; ret tt.

Definition exec (c : Call) : M unit :=
  match c with
  | CFrontMatter metadata => FrontMatter metadata
  | CHeading level text id attributes => Heading level text id attributes
  | CApplyFormatting text formats => drop (ApplyFormatting text formats)
  | CParagraph text formats => Paragraph text formats
  | CCodeBlock language code => CodeBlock language code
  | CReferenceLink label text url => ReferenceLink label text url
  | CImage altText url => Image altText url
  | CList items isOrdered => List items isOrdered
  | CNestedList nestedItems isOrdered => NestedList nestedItems isOrdered
  | CTable headers rows align => Table headers rows align
  | CBlockquote text => Blockquote text
  | CHorizontalRule => HorizontalRule
  | CFootnote label text => Footnote label text
  | CMultiLineFootnote label lines => MultiLineFootnote label lines
  | CDefinitionList definitions_ => DefinitionList definitions_
  | CEscape text => drop (Escape text)
  | CCustomDiv className content_ => CustomDiv className content_
  | CTaskList items checked => TaskList items checked
  | CMermaidDiagram diagram => MermaidDiagram diagram
  | CMathBlock equation => MathBlock equation
  | CUnderline text => drop (Underline text)
  | CSubscript text => drop (Subscript text)
  | CSuperscript text => drop (Superscript text)
  | CColorText text color => drop (ColorText text color)
  | CToHTML => drop ToHTML
  | CGetContent => drop GetContent
  end.

End Guarded.

(** ** The earlier package, with the heading log *)

Module Logged.
Import Go.

(** [type Heading struct]: what [TableOfContents] needs of a heading.  The
    method [Heading] keeps the name, the struct is [HeadingEntry] here. *)
Record HeadingEntry : Type := mkHeading {
  Text : string;
  ID : string
}.

Record Markdown : Type := mkMarkdown {
  content : string;
  headings : list HeadingEntry
}.

Definition New : Markdown := mkMarkdown EmptyString [].

Abbreviation M := (Go.M Markdown).

(** [md.content.WriteString(s)]. *)
Definition WriteString (s : string) : M unit :=
  fun md => Ok tt (mkMarkdown (content md +:+ s) (headings md)).

(** [md.headings = append(md.headings, h)]. *)
Definition append_headings (h : HeadingEntry) : M unit :=
  fun md => Ok tt (mkMarkdown (content md) (headings md ++ [h])).

(** Reading [md.headings]. *)
Definition get_headings : M (list HeadingEntry) :=
  fun md => Ok (headings md) md.

(** A [range] over a Go map yields its entries in an order that the
    language leaves unspecified: any sequence [pairs] with
    [range_of metadata pairs]. *)
Definition range_of (metadata : gmap string string)
    (pairs : list (string * string)) : Prop :=
  pairs ≡ₚ map_to_list metadata.

(** [FrontMatter(metadata)] when the range over [metadata] yields
    [pairs]. *)
Definition FrontMatter (pairs : list (string * string)) : M unit :=
  WriteString ("---" +:+ nl) ;;
  range pairs (fun _ kv =>
    WriteString (fst kv +:+ ": " +:+ dquote +:+ snd kv +:+ dquote +:+ nl)) ;;
  WriteString ("---" +:+ nl +:+ nl).

Definition Heading (level : Z) (text id : string) : M unit :=
  let level := if (level <? 1)%Z || (level >? 6)%Z then 1%Z else level in
  let headingText := Repeat "#" level +:+ " " +:+ text in
  WriteString headingText ;;
  (if negb (String.eqb id EmptyString)
   then WriteString (" {#" +:+ id +:+ "}") else ret tt) ;;
  WriteString (nl +:+ nl) ;;
  append_headings (mkHeading headingText id).

Definition TableOfContents : M unit :=
  WriteString ("## Table of Contents" +:+ nl) ;;
  hs <- get_headings ;;
  range hs (fun _ heading =>
    if negb (String.eqb (ID heading) EmptyString)
    then WriteString ("- " +:+ Text heading +:+ " {#" +:+ ID heading
                      +:+ "}" +:+ nl)
    else WriteString ("- " +:+ Text heading +:+ nl)) ;;
  WriteString nl.

Definition Bold (text : string) : M string :=
  ret ("**" +:+ text +:+ "**").

Definition Italic (text : string) : M string :=
  ret ("_" +:+ text +:+ "_").

Definition Strikethrough (text : string) : M string :=
  ret ("~~" +:+ text +:+ "~~").

Definition InlineCode (text : string) : M string :=
  ret ("`" +:+ text +:+ "`").

Definition applyFormatting (text : string) (formats : list string)
    : M string :=
  range_with formats text (fun text format =>
    if String.eqb format "bold" then Bold text
    else if String.eqb format "italic" then Italic text
    else if String.eqb format "strikethrough" then Strikethrough text
    else if String.eqb format "code" then InlineCode text
    else ret text).

Definition Paragraph (text : string) (formats : list string) : M unit :=
  formatted <- applyFormatting text formats ;;
  WriteString (formatted +:+ nl +:+ nl).

Definition MathBlock (equation : string) : M unit :=
  WriteString ("$$" +:+ nl +:+ equation +:+ nl +:+ "$$" +:+ nl +:+ nl).

Definition MermaidDiagram (diagram : string) : M unit :=
  WriteString ("```mermaid" +:+ nl +:+ diagram +:+ nl +:+ "```"
               +:+ nl +:+ nl).

Definition CustomDiv (className content_ : string) : M unit :=
  WriteString ("::: " +:+ className +:+ nl +:+ content_ +:+ nl +:+ ":::"
               +:+ nl +:+ nl).

Definition Emoji (emoji : string) : M unit :=
  WriteString (":" +:+ emoji +:+ ":" +:+ nl +:+ nl).

Definition Link (text url : string) : M string :=
  ret ("[" +:+ text +:+ "](" +:+ url +:+ ")").

Definition AutoLink (url : string) : M unit :=
  WriteString ("<" +:+ url +:+ ">" +:+ nl +:+ nl).

Definition Image (altText url : string) : M unit :=
  WriteString ("![" +:+ altText +:+ "](" +:+ url +:+ ")" +:+ nl +:+ nl).

Definition CodeBlock (language code : string) : M unit :=
  WriteString ("```" +:+ language +:+ nl +:+ code +:+ nl +:+ "```"
               +:+ nl +:+ nl).

Definition UnorderedList (items : list string) : M unit :=
  range items (fun _ item => WriteString ("- " +:+ item +:+ nl)) ;;
  WriteString nl.

Definition OrderedList (items : list string) : M unit :=
  range items (fun i item =>
    WriteString (Itoa (Z.of_nat i + 1)%Z +:+ ". " +:+ item +:+ nl)) ;;
  WriteString nl.

Definition NestedList (lists : list (list string)) (isOrdered : bool)
    : M unit :=
  range lists (fun _ list =>
    range list (fun level item =>
      let indent := Repeat "  " (Z.of_nat level) in
      if isOrdered
      then WriteString (indent +:+ Itoa (Z.of_nat level + 1)%Z +:+ ". "
                        +:+ item +:+ nl)
      else WriteString (indent +:+ "- " +:+ item +:+ nl))) ;;
  WriteString nl.

(** [checked[i]] is read without a bound check. *)
Definition TaskList (items : list string) (checked : list bool) : M unit :=
  range items (fun i item =>
    c <- index checked i ;;
    let status := if c : bool then "x" else " " in
    WriteString ("- [" +:+ status +:+ "] " +:+ item +:+ nl)) ;;
  WriteString nl.

(** The [switch] that builds the alignment line of [Table]. *)
Definition align_case (alignType : string) : string :=
  if String.eqb alignType "left" then "|:---"
  else if String.eqb alignType "center" then "|:---:"
  else if String.eqb alignType "right" then "|---:"
  else "|---".

Definition Table (headers : list string) (rows : list (list string))
    (align : list string) : M unit :=
  let alignment :=
    foldl (fun alignment alignType => alignment +:+ align_case alignType)
          EmptyString align in
  WriteString ("| " +:+ Join headers " | " +:+ " |" +:+ nl) ;;
  WriteString (alignment +:+ "|" +:+ nl) ;;
  range rows (fun _ row =>
    WriteString ("| " +:+ Join row " | " +:+ " |" +:+ nl)) ;;
  WriteString nl.

Definition Footnote (label text : string) : M unit :=
  WriteString ("[" +:+ label +:+ "]: " +:+ text
               +:+ " [Return to text](#fn-" +:+ label +:+ "-back)" +:+ nl).

Definition MultiLineFootnote (label : string) (lines : list string)
    : M unit :=
  WriteString ("[" +:+ label +:+ "]: ") ;;
  range lines (fun _ line => WriteString (line +:+ nl)) ;;
  WriteString ("[Return to text](#fn-" +:+ label +:+ "-back)"
               +:+ nl +:+ nl).

Definition Blockquote (text : string) : M unit :=
  WriteString ("> " +:+ text +:+ nl +:+ nl).

Definition HorizontalRule : M unit :=
  WriteString ("---" +:+ nl +:+ nl).

(** [specialChars]: fifteen one-byte strings, the backslash first. *)
Definition specialChars : list ascii :=
  ["\"; "`"; "*"; "_"; "{"; "}"; "["; "]"; "("; ")"; "#"; "+"; "-"; ".";
   "!"]%char.

Definition Escape (text : string) : M string :=
  let escaped := text in
  range_with specialChars escaped (fun escaped char =>
    ret (ReplaceAll escaped char ("\" +:+ String char EmptyString))).

Definition GetContent : M string :=
  fun md => Ok (content md) md.

Definition ToHTML : M string :=
  c <- GetContent ;;
  ret ("<html>" +:+ ReplaceAll c "010"%char "<br>" +:+ "</html>").

(** One call of the API on the document, with its arguments; the range
    order of the map comes with [CFrontMatter].  A value that a call
    returns is dropped by [exec]. *)
Inductive Call : Type :=
| CFrontMatter (pairs : list (string * string))
| CHeading (level : Z) (text id : string)
| CTableOfContents
| CParagraph (text : string) (formats : list string)
| CBold (text : string)
| CItalic (text : string)
| CStrikethrough (text : string)
| CInlineCode (text : string)
| CMathBlock (equation : string)
| CMermaidDiagram (diagram : string)
| CCustomDiv (className content_ : string)
| CEmoji (emoji : string)
| CLink (text url : string)
| CAutoLink (url : string)
| CImage (altText url : string)
| CCodeBlock (language code : string)
| CUnorderedList (items : list string)
| COrderedList (items : list string)
| CNestedList (lists : list (list string)) (isOrdered : bool)
| CTaskList (items : list string) (checked : list bool)
| CTable (headers : list string) (rows : list (list string))
    (align : list string)
| CFootnote (label text : string)
| CMultiLineFootnote (label : string) (lines : list string)
| CBlockquote (text : string)
| CHorizontalRule
| CEscape (text : string)
| CToHTML
| CGetContent.

Definition drop {A} (m : M A) : M unit := m ;; ret tt.

Definition exec (c : Call) : M unit :=
  match c with
  | CFrontMatter pairs => FrontMatter pairs
  | CHeading level text id => Heading level text id
  | CTableOfContents => TableOfContents
  | CParagraph text formats => Paragraph text formats
  | CBold text => drop (Bold text)
  | CItalic text => drop (Italic text)
  | CStrikethrough text => drop (Strikethrough text)
  | CInlineCode text => drop (InlineCode text)
  | CMathBlock equation => MathBlock equation
  | CMermaidDiagram diagram => MermaidDiagram diagram
  | CCustomDiv className content_ => CustomDiv className content_
  | CEmoji emoji => Emoji emoji
  | CLink text url => drop (Link text url)
  | CAutoLink url => AutoLink url
  | CImage altText url => Image altText url
  | CCodeBlock language code => CodeBlock language code
  | CUnorderedList items => UnorderedList items
  | COrderedList items => OrderedList items
  | CNestedList lists isOrdered => NestedList lists isOrdered
  | CTaskList items checked => TaskList items checked
  | CTable headers rows align => Table headers rows align
  | CFootnote label text => Footnote label text
  | CMultiLineFootnote label lines => MultiLineFootnote label lines
  | CBlockquote text => Blockquote text
  | CHorizontalRule => HorizontalRule
  | CEscape text => drop (Escape text)
  | CToHTML => drop ToHTML
  | CGetContent => drop GetContent
  end.

(** A program that makes the calls one after the other; a panic ends
    it. *)
Fixpoint run (calls : list Call) : M unit :=
  match calls with
  | [] => ret tt
  | c :: calls' => exec c ;; run calls'
  end.

End Logged.

(** ** Vocabulary of the properties *)

Module Props.
Import Go.

(** [s] continues [before]: [before] is a prefix of [s]. *)
Definition continues (before s : string) : Prop :=
  exists suffix, s = before +:+ suffix.

(** Whatever its outcome, [m] leaves the receiver related by [P] to what
    it was. *)
Definition preserves {R A} (P : relation R) (m : M R A) : Prop :=
  forall md, P md (after (m md)).

(** [m] returns, and its whole effect is [put s]. *)
Definition does {R} (put : string -> R -> R) (m : M R unit) (s : string)
    : Prop :=
  forall md, m md = Ok tt (put s md).

(** [m] returns [a] and has no effect. *)
Definition yields {R A} (m : M R A) (a : A) : Prop :=
  forall md, m md = Ok a md.

(** The concatenation of a list of fragments. *)
Definition cat (l : list string) : string :=
  foldr String.append EmptyString l.

(** The fragments of a loop over [l] entered at index [i]. *)
Fixpoint lines_from {A} (f : nat -> A -> string) (i : nat) (l : list A)
    : string :=
  match l with
  | [] => EmptyString
  | x :: l' => f i x +:+ lines_from f (S i) l'
  end.

(** A scan from left to right that replaces each byte [c] by [esc c]. *)
Fixpoint scan (esc : ascii -> string) (text : string) : string :=
  match text with
  | EmptyString => EmptyString
  | String c text' => esc c +:+ scan esc text'
  end.

(** The fifteen characters that [Escape] is documented to escape. *)
Definition special (c : ascii) : bool :=
  existsb (Ascii.eqb c) (list_ascii_of_string "\`*_{}[]()#+-.!").

(** Each special character gets one backslash in front. *)
Definition escape_once (c : ascii) : string :=
  if special c then String "\"%char (String c EmptyString)
  else String c EmptyString.

(** One turn of the loop of [Escape]: a backslash in front of each [char]
    of the text. *)
Definition pass (text : string) (char : ascii) : string :=
  ReplaceAll text char ("\" +:+ String char EmptyString).

(** [n] times the character [#]. *)
Definition hashes (n : Z) : string :=
  string_of_list_ascii (replicate (Z.to_nat n) "#"%char).

(** The anchor suffix of a heading. *)
Definition anchor (id : string) : string :=
  if String.eqb id EmptyString then EmptyString
  else " {#" +:+ id +:+ "}".

(** The attributes suffix of a heading of the package with the flags. *)
Definition attribute_suffix (attributes : string) : string :=
  if String.eqb attributes EmptyString then EmptyString
  else " {" +:+ attributes +:+ "}".

(** The effect of a write on either document. *)
Definition putG (s : string) (md : Guarded.Markdown) : Guarded.Markdown :=
  Guarded.mkMarkdown (Guarded.content md +:+ s) (Guarded.flavor md)
    (Guarded.useColor md).

Definition putL (s : string) (md : Logged.Markdown) : Logged.Markdown :=
  Logged.mkMarkdown (Logged.content md +:+ s) (Logged.headings md).

Definition growsG : relation Guarded.Markdown :=
  fun md md' => continues (Guarded.content md) (Guarded.content md').

Definition growsL : relation Logged.Markdown :=
  fun md md' => continues (Logged.content md) (Logged.content md').

Definition same_log : relation Logged.Markdown :=
  fun md md' => Logged.headings md' = Logged.headings md.

(** The level that [Heading] goes on with after its first test, in both
    packages. *)
Definition clamp (level : Z) : Z :=
  if (level <? 1)%Z || (level >? 6)%Z then 1%Z else level.

(** What a heading looks like in the buffer, without its line ends:
    the text with its [#] prefix, then the anchor when there is one. *)
Definition rendered (h : Logged.HeadingEntry) : string :=
  Logged.Text h +:+
  (if String.eqb (Logged.ID h) EmptyString then EmptyString
   else " {#" +:+ Logged.ID h +:+ "}").

(** The headings that a sequence of calls emits, in the order of the
    calls. *)
Fixpoint emitted (calls : list Logged.Call) : list Logged.HeadingEntry :=
  match calls with
  | [] => []
  | Logged.CHeading level text id :: calls' =>
      Logged.mkHeading (Repeat "#" (clamp level) +:+ " " +:+ text) id
        :: emitted calls'
  | _ :: calls' => emitted calls'
  end.

(** The fragment of a table of contents for a list of headings. *)
Definition toc (hs : list Logged.HeadingEntry) : string :=
  "## Table of Contents" +:+ nl
  +:+ cat (map (fun h => "- " +:+ rendered h +:+ nl) hs)
  +:+ nl.

(** A table line: the cells between bars. *)
Definition table_row (cells : list string) : string :=
  "| " +:+ Join cells " | " +:+ " |" +:+ nl.

(** The cell of the alignment line for one entry of [align]. *)
Definition align_cell (a : string) : string :=
  if String.eqb a "left" then ":---|"
  else if String.eqb a "center" then ":---:|"
  else if String.eqb a "right" then "---:|"
  else "---|".

(** The table that the text describes: the header line, the alignment
    line, the rows that have as many cells as there are headers, and an
    empty line. *)
Definition table_fragment (headers : list string) (rows : list (list string))
    (align : list string) : string :=
  table_row headers
  +:+ "|" +:+ cat (map align_cell align) +:+ nl
  +:+ cat (map table_row
             (List.filter (fun row => Nat.eqb (length row) (length headers))
                rows))
  +:+ nl.

(** The task line of the item at index [i]. *)
Definition task_line (checked : list bool) (i : nat) (item : string)
    : string :=
  if String.eqb item EmptyString then EmptyString
  else "- [" +:+ (if default false (checked !! i) then "x" else " ")
       +:+ "] " +:+ item +:+ nl.

(** The line of front matter for [key]. *)
Definition meta_line (metadata : gmap string string) (key : string)
    : string :=
  match metadata !! key with
  | Some value => key +:+ ": " +:+ dquote +:+ value +:+ dquote +:+ nl
  | None => EmptyString
  end.

(** [m] returns [f md], where [md] is the receiver, and leaves the
    receiver as it was. *)
Definition reads {R A} (m : M R A) (f : R -> A) : Prop :=
  forall md, m md = Ok (f md) md.

(** The markup that [applyFormatting] of the package with the log puts
    around a text for one format. *)
Definition inline_case (format text : string) : string :=
  if String.eqb format "bold" then "**" +:+ text +:+ "**"
  else if String.eqb format "italic" then "_" +:+ text +:+ "_"
  else if String.eqb format "strikethrough" then "~~" +:+ text +:+ "~~"
  else if String.eqb format "code" then "`" +:+ text +:+ "`"
  else text.

End Props.

(** ** Vocabulary of the further properties *)

Module Laws.
Import Go Props.

(** The document after the calls were made one after the other, whatever
    the outcome of each. *)
Definition replay {R C} (exec : C -> M R unit) (calls : list C) (md : R) : R :=
  foldl (fun md c => after (exec c md)) md calls.

(** [m] returns after appending some fragment, the same on every
    document. *)
Definition writes {R} (put : string -> R -> R) (m : M R unit) : Prop :=
  exists s, does put m s.

(** The same, with a fragment that is not empty. *)
Definition adds {R} (put : string -> R -> R) (m : M R unit) : Prop :=
  exists s, s <> EmptyString /\ does put m s.

(** What a call of the package with the flags appends to a fresh
    document. *)
Definition fragment (c : Guarded.Call) : string :=
  Guarded.content
    (after (Guarded.exec c (Guarded.New Guarded.StandardMarkdown false))).

(** A text made of complete lines: empty, or ending with a line end. *)
Definition complete_lines (s : string) : Prop :=
  s = EmptyString \/ exists t, s = t +:+ nl.

Definition tidyG : relation Guarded.Markdown :=
  fun md md' =>
    complete_lines (Guarded.content md) ->
    complete_lines (Guarded.content md').

Definition tidyL : relation Logged.Markdown :=
  fun md md' =>
    complete_lines (Logged.content md) -> complete_lines (Logged.content md').

(** The number of bytes of [s] that satisfy [p]. *)
Fixpoint count_bytes (p : ascii -> bool) (s : string) : nat :=
  match s with
  | EmptyString => 0%nat
  | String c s' => ((if p c then 1 else 0) + count_bytes p s')%nat
  end.

(** The calls of the package with the log that write into the buffer; the
    others only return a string. *)
Definition command (c : Logged.Call) : bool :=
  match c with
  | Logged.CBold _ | Logged.CItalic _ | Logged.CStrikethrough _
  | Logged.CInlineCode _ | Logged.CLink _ _ | Logged.CEscape _
  | Logged.CToHTML | Logged.CGetContent => false
  | _ => true
  end.

(** The formats that both packages know. *)
Definition common_format (format : string) : bool :=
  String.eqb format "bold" || String.eqb format "italic"
  || String.eqb format "strikethrough" || String.eqb format "code".

(** The task line that the package with the log writes for the item at
    index [i]. *)
Definition task_line_unguarded (checked : list bool) (i : nat)
    (item : string) : string :=
  "- [" +:+ (if default false (checked !! i) then "x" else " ")
  +:+ "] " +:+ item +:+ nl.

(** The block of a definition list for one term. *)
Definition definition_block (definitions_ : gmap string (list string))
    (term : string) : string :=
  match default [] (definitions_ !! term) with
  | [] => EmptyString
  | defs => term +:+ nl +:+ cat (map (fun d => ": " +:+ d +:+ nl) defs) +:+ nl
  end.

(** The formats that the package with the flags knows. *)
Definition flagged_format (format : string) : bool :=
  common_format format || String.eqb format "underline"
  || String.eqb format "subscript" || String.eqb format "superscript".

(** Two calls, one of each package, that return after appending the same
    fragment. *)
Definition same_fragment (mG : Guarded.M unit) (mL : Logged.M unit) : Prop :=
  exists s, does putG mG s /\ does putL mL s.

(** The entries of [title], [author] and [date] in a map, in this order. *)
Definition front_pairs (metadata : gmap string string)
    : list (string * string) :=
  omap (fun key => (fun value => (key, value)) <$> metadata !! key)
       ["title"; "author"; "date"].

(** The byte that ends a line. *)
Definition line_end (c : ascii) : bool := Ascii.eqb c "010"%char.

(** What [Escape] of the package with the flags makes of one byte: the
    backslash is escaped by two turns of the loop. *)
Definition escape_twice (c : ascii) : string :=
  if Ascii.eqb c "\"%char then "\\\\" else escape_once c.

End Laws.

(** * Properties *)

Import Go Props.

(** ** Strings *)

Lemma append_cons (c : ascii) (s t : string) :
  String c s +:+ t = String c (s +:+ t).
Proof. reflexivity. Qed.

Lemma append_nil_l (s : string) : EmptyString +:+ s = s.
Proof. reflexivity. Qed.

Lemma append_nil_r (s : string) : s +:+ EmptyString = s.
Proof.
  induction s as [|c s IH]; [reflexivity | now rewrite append_cons, IH].
Qed.

Lemma append_assoc (s t u : string) : (s +:+ t) +:+ u = s +:+ t +:+ u.
Proof.
  induction s as [|c s IH]; [reflexivity | now rewrite !append_cons, IH].
Qed.

Lemma continues_refl (s : string) : continues s s.
Proof. exists EmptyString. now rewrite append_nil_r. Qed.

Lemma continues_trans (s t u : string) :
  continues s t -> continues t u -> continues s u.
Proof.
  intros [a ->] [b ->]. exists (a +:+ b). apply append_assoc.
Qed.

Lemma continues_append (s t : string) : continues s (s +:+ t).
Proof. now exists t. Qed.

Lemma eqb_empty_false (s : string) :
  s <> EmptyString -> String.eqb s EmptyString = false.
Proof. intros H. now apply String.eqb_neq. Qed.

Lemma lines_from_const {A} (f : A -> string) (i : nat) (l : list A) :
  lines_from (fun _ x => f x) i l = cat (map f l).
Proof.
  revert i. induction l as [|x l IH]; intros i; simpl; [reflexivity|].
  now rewrite IH.
Qed.

(** [strings.Repeat] of the one-character string [#] is a run of [#]. *)
Lemma Repeat_hash (n : Z) : Repeat "#" n = hashes n.
Proof.
  unfold Repeat, hashes.
  induction (Z.to_nat n) as [|k IH]; simpl; [reflexivity|].
  now rewrite IH.
Qed.

Lemma hashes_length (n : Z) : String.length (hashes n) = Z.to_nat n.
Proof.
  unfold hashes.
  induction (Z.to_nat n) as [|k IH]; simpl; [reflexivity | now rewrite IH].
Qed.

(** With a one-byte pattern [ReplaceAll] is a scan. *)
Lemma ReplaceAll_scan (s : string) (old : ascii) (new : string) :
  ReplaceAll s old new
  = scan (fun c => if Ascii.eqb c old then new else String c EmptyString) s.
Proof. induction s as [|c s IH]; simpl; [reflexivity | now rewrite IH]. Qed.

Lemma scan_app (esc : ascii -> string) (s t : string) :
  scan esc (s +:+ t) = scan esc s +:+ scan esc t.
Proof.
  induction s as [|c s IH]; [reflexivity|].
  rewrite append_cons. simpl. now rewrite IH, append_assoc.
Qed.

Lemma ReplaceAll_app (s t : string) (old : ascii) (new : string) :
  ReplaceAll (s +:+ t) old new = ReplaceAll s old new +:+ ReplaceAll t old new.
Proof.
  rewrite !ReplaceAll_scan. apply scan_app.
Qed.

(** ** Computations *)

Section Computations.
Context {R : Type}.

Lemma range_with_ret {A B} (f : B -> A -> B) (l : list A) (acc : B) :
  yields (R := R) (range_with l acc (fun acc x => ret (f acc x)))
         (foldl f acc l).
Proof.
  revert acc. induction l as [|x l IH]; intros acc md; simpl.
  - reflexivity.
  - unfold bind, ret at 1. apply IH.
Qed.

Lemma bind_panic {A B} (m : M R A) (k : A -> M R B) (md md' : R) :
  m md = Panic md' -> bind m k md = Panic md'.
Proof. intros H. unfold bind. now rewrite H. Qed.

Section Preserves.
Context (P : relation R) `{!PreOrder P}.

Lemma preserves_ret {A} (a : A) : preserves P (ret a).
Proof. intros md. simpl. reflexivity. Qed.

Lemma preserves_panic {A} : preserves P (panic (A := A)).
Proof. intros md. simpl. reflexivity. Qed.

Lemma preserves_bind {A B} (m : M R A) (k : A -> M R B) :
  preserves P m -> (forall a, preserves P (k a)) -> preserves P (bind m k).
Proof.
  intros Hm Hk md. unfold bind. specialize (Hm md).
  destruct (m md) as [a md'|md']; simpl in *.
  - etransitivity; [exact Hm | apply Hk].
  - exact Hm.
Qed.

Lemma preserves_index {A} (l : list A) (i : nat) :
  preserves P (index l i).
Proof.
  unfold index. destruct (l !! i);
    [apply preserves_ret | apply preserves_panic].
Qed.

Lemma preserves_for_range {A} (body : nat -> A -> M R unit) (i : nat)
    (l : list A) :
  (forall i x, preserves P (body i x)) -> preserves P (for_range body i l).
Proof.
  intros Hbody. revert i.
  induction l as [|x l IH]; intros i; simpl.
  - apply preserves_ret.
  - apply preserves_bind; [apply Hbody | intros _; apply IH].
Qed.

Lemma preserves_range {A} (l : list A) (body : nat -> A -> M R unit) :
  (forall i x, preserves P (body i x)) -> preserves P (range l body).
Proof. apply preserves_for_range. Qed.

Lemma preserves_range_with {A B} (l : list A) (acc : B)
    (body : B -> A -> M R B) :
  (forall acc x, preserves P (body acc x)) ->
  preserves P (range_with l acc body).
Proof.
  intros Hbody. revert acc.
  induction l as [|x l IH]; intros acc; simpl.
  - apply preserves_ret.
  - apply preserves_bind; [apply Hbody | intros acc'; apply IH].
Qed.

Lemma preserves_read {A} (m : M R A) :
  (forall md, after (m md) = md) -> preserves P m.
Proof. intros H md. rewrite H. reflexivity. Qed.
End Preserves.

Section Does.
Context (put : string -> R -> R).
Context (put_nil : forall md, put EmptyString md = md).
Context (put_put : forall s t md, put t (put s md) = put (s +:+ t) md).

Lemma does_ret : does put (ret tt) EmptyString.
Proof. intros md. unfold ret. now rewrite put_nil. Qed.

Lemma does_bind (m k : M R unit) (s t : string) :
  does put m s -> does put k t ->
  does put (bind m (fun _ => k)) (s +:+ t).
Proof.
  intros Hm Hk md. unfold bind. rewrite Hm, Hk. now rewrite put_put.
Qed.

Lemma does_for_range {A} (body : nat -> A -> M R unit)
    (f : nat -> A -> string) (i : nat) (l : list A) :
  (forall i x, does put (body i x) (f i x)) ->
  does put (for_range body i l) (lines_from f i l).
Proof.
  intros Hbody. revert i.
  induction l as [|x l IH]; intros i; simpl.
  - apply does_ret.
  - apply does_bind; [apply Hbody | apply IH].
Qed.

Lemma does_range {A} (l : list A) (body : nat -> A -> M R unit)
    (f : nat -> A -> string) :
  (forall i x, does put (body i x) (f i x)) ->
  does put (range l body) (lines_from f 0%nat l).
Proof. apply does_for_range. Qed.

Lemma does_eq (m : M R unit) (s t : string) :
  does put m s -> s = t -> does put m t.
Proof. now intros H <-. Qed.
End Does.
End Computations.

(** ** Writes into either document *)

#[local] Instance growsG_preorder : PreOrder growsG.
Proof.
  split.
  - intros md. apply continues_refl.
  - intros a b c. apply continues_trans.
Qed.

#[local] Instance growsL_preorder : PreOrder growsL.
Proof.
  split.
  - intros md. apply continues_refl.
  - intros a b c. apply continues_trans.
Qed.

#[local] Instance same_log_preorder : PreOrder same_log.
Proof.
  split.
  - intros md. reflexivity.
  - intros a b c Hab Hbc. unfold same_log in *. congruence.
Qed.

Lemma putG_nil (md : Guarded.Markdown) : putG EmptyString md = md.
Proof. destruct md. unfold putG. simpl. now rewrite append_nil_r. Qed.

Lemma putG_putG (s t : string) (md : Guarded.Markdown) :
  putG t (putG s md) = putG (s +:+ t) md.
Proof. unfold putG. simpl. now rewrite append_assoc. Qed.

Lemma putL_nil (md : Logged.Markdown) : putL EmptyString md = md.
Proof. destruct md. unfold putL. simpl. now rewrite append_nil_r. Qed.

Lemma putL_putL (s t : string) (md : Logged.Markdown) :
  putL t (putL s md) = putL (s +:+ t) md.
Proof. unfold putL. simpl. now rewrite append_assoc. Qed.

Lemma Guarded_WriteString_does (s : string) :
  does putG (Guarded.WriteString s) s.
Proof. intros md. reflexivity. Qed.

Lemma Logged_WriteString_does (s : string) :
  does putL (Logged.WriteString s) s.
Proof. intros md. reflexivity. Qed.

Lemma Guarded_WriteString_grows (s : string) :
  preserves growsG (Guarded.WriteString s).
Proof. intros md. apply continues_append. Qed.

Lemma Logged_WriteString_grows (s : string) :
  preserves growsL (Logged.WriteString s).
Proof. intros md. apply continues_append. Qed.

Lemma Logged_WriteString_same_log (s : string) :
  preserves same_log (Logged.WriteString s).
Proof. intros md. reflexivity. Qed.

Lemma Logged_get_headings_yields :
  forall md, Logged.get_headings md = Ok (Logged.headings md) md.
Proof. reflexivity. Qed.

Lemma Logged_append_headings_grows (h : Logged.HeadingEntry) :
  preserves growsL (Logged.append_headings h).
Proof. intros md. apply continues_refl. Qed.

Lemma Guarded_ColorText_read (text color : string) (md : Guarded.Markdown) :
  after (Guarded.ColorText text color md) = md.
Proof. unfold Guarded.ColorText. now destruct (Guarded.useColor md). Qed.

(** The bodies of the methods. *)
Create HintDb guarded_api.
#[local] Hint Unfold Guarded.FrontMatter Guarded.Heading Guarded.Paragraph
  Guarded.CodeBlock Guarded.ReferenceLink Guarded.Image Guarded.List
  Guarded.NestedList Guarded.Table Guarded.Blockquote Guarded.HorizontalRule
  Guarded.Footnote Guarded.MultiLineFootnote Guarded.DefinitionList
  Guarded.Escape Guarded.CustomDiv Guarded.TaskList Guarded.MermaidDiagram
  Guarded.MathBlock Guarded.Underline Guarded.Subscript Guarded.Superscript
  Guarded.ToHTML Guarded.drop : guarded_api.

Create HintDb logged_api.
#[local] Hint Unfold Logged.FrontMatter Logged.Heading Logged.TableOfContents
  Logged.Paragraph Logged.applyFormatting Logged.Bold Logged.Italic
  Logged.Strikethrough Logged.InlineCode Logged.MathBlock
  Logged.MermaidDiagram Logged.CustomDiv Logged.Emoji Logged.Link
  Logged.AutoLink Logged.Image Logged.CodeBlock Logged.UnorderedList
  Logged.OrderedList Logged.NestedList Logged.TaskList Logged.Table
  Logged.Footnote Logged.MultiLineFootnote Logged.Blockquote
  Logged.HorizontalRule Logged.Escape Logged.ToHTML Logged.drop : logged_api.

(** One step of a proof that a method preserves a relation: follow the
    shape of its body. *)
Ltac preserves_step :=
  lazymatch goal with
  | |- preserves _ (ret _) => apply preserves_ret; try typeclasses eauto
  | |- preserves _ (bind _ _) =>
      apply preserves_bind; [try typeclasses eauto | | intros ?]
  | |- preserves _ (range _ _) =>
      apply preserves_range; [try typeclasses eauto | intros ? ?]
  | |- preserves _ (range_with _ _ _) =>
      apply preserves_range_with; [try typeclasses eauto | intros ? ?]
  | |- preserves _ (index _ _) => apply preserves_index; try typeclasses eauto
  | |- preserves growsG (Guarded.WriteString _) =>
      apply Guarded_WriteString_grows
  | |- preserves growsL (Logged.WriteString _) =>
      apply Logged_WriteString_grows
  | |- preserves same_log (Logged.WriteString _) =>
      apply Logged_WriteString_same_log
  | |- preserves growsL (Logged.append_headings _) =>
      apply Logged_append_headings_grows
  | |- preserves _ Logged.get_headings =>
      apply preserves_read; [try typeclasses eauto | reflexivity]
  | |- preserves _ Logged.GetContent =>
      apply preserves_read; [try typeclasses eauto | reflexivity]
  | |- preserves _ Guarded.GetContent =>
      apply preserves_read; [try typeclasses eauto | reflexivity]
  | |- preserves _ (Guarded.ColorText _ _) =>
      apply preserves_read;
      [try typeclasses eauto | apply Guarded_ColorText_read]
  | |- preserves _ (if ?b then _ else _) => destruct b
  | |- preserves _ (match ?x with _ => _ end) => destruct x
  end.

Ltac preserves_body := cbv zeta; repeat preserves_step.

(** *** Every call of the package with the flags only appends *)

Lemma Guarded_ApplyFormatting_grows (text : string) (formats : list string) :
  preserves growsG (Guarded.ApplyFormatting text formats).
Proof.
  unfold Guarded.ApplyFormatting.
  generalize (length formats) as n. intros n. revert text.
  induction n as [|i IH]; intros text; simpl; preserves_body. apply IH.
Qed.

Lemma Guarded_exec_grows (c : Guarded.Call) :
  preserves growsG (Guarded.exec c).
Proof.
  destruct c; simpl; autounfold with guarded_api; preserves_body;
    apply Guarded_ApplyFormatting_grows.
Qed.

(** *** Every call of the package with the log only appends *)

Lemma Logged_exec_grows (c : Logged.Call) :
  preserves growsL (Logged.exec c).
Proof.
  destruct c; simpl; autounfold with logged_api; preserves_body.
Qed.

(** C1.  Whatever the document and whatever the call, with whatever
    arguments, what [GetContent] returns before the call is a prefix of
    what it returns after the call, also when the call panics: the buffer
    grows at its end and is never cut, reordered or rewritten.  This holds
    in the package with the flags and in the package with the log. *)
Theorem content_only_grows :
  (forall (c : Guarded.Call) (md : Guarded.Markdown),
      exists before suffix,
        returned (Guarded.GetContent md) = Some before /\
        returned (Guarded.GetContent (after (Guarded.exec c md)))
        = Some (before +:+ suffix))
  /\
  (forall (c : Logged.Call) (md : Logged.Markdown),
      exists before suffix,
        returned (Logged.GetContent md) = Some before /\
        returned (Logged.GetContent (after (Logged.exec c md)))
        = Some (before +:+ suffix)).
Proof.
  split; intros c md.
  - destruct (Guarded_exec_grows c md) as [suffix H].
    exists (Guarded.content md), suffix. simpl. now rewrite H.
  - destruct (Logged_exec_grows c md) as [suffix H].
    exists (Logged.content md), suffix. simpl. now rewrite H.
Qed.

(** ** The heading log and the table of contents *)

(** A call of [Heading] appends the rendered heading and two line ends, and
    logs the heading. *)
Lemma Logged_Heading_run (level : Z) (text id : string) (md : Logged.Markdown) :
  let h := Logged.mkHeading
             (Repeat "#" (clamp level) +:+ " " +:+ text) id in
  Logged.Heading level text id md
  = Ok tt (Logged.mkMarkdown
             (Logged.content md +:+ rendered h +:+ nl +:+ nl)
             (Logged.headings md ++ [h])).
Proof.
  unfold Logged.Heading, rendered, clamp, bind,
    Logged.WriteString, Logged.append_headings, ret. simpl.
  destruct (String.eqb id EmptyString); simpl;
    now rewrite ?append_assoc, ?append_nil_l.
Qed.

Lemma Logged_toc_line_does (h : Logged.HeadingEntry) :
  does putL
    (if negb (String.eqb (Logged.ID h) EmptyString)
     then Logged.WriteString ("- " +:+ Logged.Text h +:+ " {#" +:+ Logged.ID h
                              +:+ "}" +:+ nl)
     else Logged.WriteString ("- " +:+ Logged.Text h +:+ nl))
    ("- " +:+ rendered h +:+ nl).
Proof.
  unfold rendered.
  destruct (String.eqb (Logged.ID h) EmptyString); simpl;
    (eapply does_eq; [apply Logged_WriteString_does|]);
    now rewrite ?append_assoc, ?append_nil_l.
Qed.

(** [TableOfContents] appends the title line, one line for each logged
    heading in the order of the log, and an empty line. *)
Lemma Logged_TableOfContents_does (md : Logged.Markdown) :
  Logged.TableOfContents md
  = Ok tt (putL (toc (Logged.headings md)) md).
Proof.
  unfold Logged.TableOfContents, toc.
  unfold bind at 1. rewrite Logged_WriteString_does.
  unfold bind at 1. rewrite Logged_get_headings_yields.
  change (Logged.headings (putL _ md)) with (Logged.headings md).
  rewrite (does_bind putL putL_putL _ _ _ _
             (does_range putL putL_nil putL_putL (Logged.headings md) _
                (fun _ h => "- " +:+ rendered h +:+ nl)
                (fun _ h => Logged_toc_line_does h))
             (Logged_WriteString_does nl)).
  rewrite putL_putL, lines_from_const. now rewrite !append_assoc.
Qed.

Lemma Logged_exec_same_log (c : Logged.Call) :
  (forall level text id, c <> Logged.CHeading level text id) ->
  preserves same_log (Logged.exec c).
Proof.
  intros Hc.
  destruct c; simpl; autounfold with logged_api;
    try solve [preserves_body].
  now contradiction (Hc level text id).
Qed.

(** Each call extends the log by the headings it emits. *)
Lemma Logged_exec_log (c : Logged.Call) (md : Logged.Markdown) :
  Logged.headings (after (Logged.exec c md))
  = Logged.headings md ++ emitted [c].
Proof.
  assert (Hother : (forall level text id, c <> Logged.CHeading level text id) ->
                   emitted [c] = [] ->
                   Logged.headings (after (Logged.exec c md))
                   = Logged.headings md ++ emitted [c]).
  { intros Hc ->. rewrite app_nil_r. apply (Logged_exec_same_log c Hc md). }
  destruct c; try (apply Hother; [discriminate | reflexivity]).
  simpl Logged.exec. now rewrite Logged_Heading_run.
Qed.

Lemma Logged_emitted_cons (c : Logged.Call) (calls : list Logged.Call) :
  emitted (c :: calls) = emitted [c] ++ emitted calls.
Proof. now destruct c. Qed.

(** The log after a program is the log before it, then the headings the
    program emitted, in the order of the calls. *)
Lemma Logged_run_log (calls : list Logged.Call) (md md' : Logged.Markdown) :
  Logged.run calls md = Ok tt md' ->
  Logged.headings md' = Logged.headings md ++ emitted calls.
Proof.
  revert md. induction calls as [|c calls IH]; intros md; simpl Logged.run.
  - intros [= <-]. now rewrite app_nil_r.
  - unfold bind. pose proof (Logged_exec_log c md) as Hc.
    destruct (Logged.exec c md) as [[] md1|md1]; [|discriminate].
    intros Hrun. rewrite (IH _ Hrun). simpl in Hc. rewrite Hc.
    now rewrite (Logged_emitted_cons c calls), app_assoc.
Qed.

Lemma Logged_run_grows (calls : list Logged.Call) :
  preserves growsL (Logged.run calls).
Proof.
  induction calls as [|c calls IH]; simpl; preserves_body.
  - apply Logged_exec_grows.
  - apply IH.
Qed.

(** C2.  After any sequence of calls, [TableOfContents] appends its title
    line and then one bullet line for each heading emitted before it, in
    the order in which the headings were emitted, none dropped, none
    merged; each line shows the heading as it was rendered, with its [#]
    prefix and, when an anchor id was given, its [{#id}] suffix.  What an
    earlier [TableOfContents] wrote stays as it is: a second call after
    more headings lists the headings of both stretches, and the output of
    the first call is still in the buffer, unchanged. *)
Theorem TableOfContents_replays_headings
    (calls1 calls2 : list Logged.Call) (md1 md2 : Logged.Markdown) :
  Logged.run calls1 Logged.New = Ok tt md1 ->
  Logged.run (Logged.CTableOfContents :: calls2) md1 = Ok tt md2 ->
  Logged.TableOfContents md1
  = Ok tt (putL (toc (emitted calls1)) md1)
  /\ Logged.TableOfContents md2
     = Ok tt (putL (toc (emitted calls1 ++ emitted calls2))
                md2)
  /\ (exists between,
        Logged.content md2
        = Logged.content md1 +:+ toc (emitted calls1)
          +:+ between)
  /\ (forall level text id md,
        let h := Logged.mkHeading
                   (Repeat "#" (clamp level) +:+ " " +:+ text) id in
        Logged.Heading level text id md
        = Ok tt (Logged.mkMarkdown
                   (Logged.content md +:+ rendered h +:+ nl +:+ nl)
                   (Logged.headings md ++ [h]))).
Proof.
  intros H1 H2.
  pose proof (Logged_run_log _ _ _ H1) as Hlog1. simpl in Hlog1.
  assert (Htoc1 : Logged.TableOfContents md1
                  = Ok tt (putL (toc (emitted calls1)) md1)).
  { rewrite Logged_TableOfContents_does. now rewrite Hlog1. }
  simpl Logged.run in H2. unfold bind in H2. rewrite Htoc1 in H2.
  pose proof (Logged_run_log _ _ _ H2) as Hlog2. simpl in Hlog2.
  repeat split.
  - exact Htoc1.
  - rewrite Logged_TableOfContents_does. now rewrite Hlog2, Hlog1.
  - destruct (Logged_run_grows calls2
                (putL (toc (emitted calls1)) md1))
      as [between Hgrow].
    rewrite H2 in Hgrow. simpl in Hgrow.
    exists between. now rewrite Hgrow, append_assoc.
  - intros level text id md. apply Logged_Heading_run.
Qed.

(** Two headings, a table of contents, a third heading, a second table of
    contents: the first lists two entries, the second three. *)
Lemma TableOfContents_replays_headings_witness :
  let calls1 := [Logged.CHeading 1 "A" EmptyString; Logged.CHeading 2 "B" "b"] in
  let calls2 := [Logged.CHeading 7 "C" EmptyString] in
  let md1 := after (Logged.run calls1 Logged.New) in
  let md2 := after (Logged.run (Logged.CTableOfContents :: calls2) md1) in
  let a := Logged.mkHeading "# A" EmptyString in
  let b := Logged.mkHeading "## B" "b" in
  let c := Logged.mkHeading "# C" EmptyString in
  Logged.TableOfContents md1 = Ok tt (putL (toc [a; b]) md1)
  /\ Logged.TableOfContents md2 = Ok tt (putL (toc [a; b; c]) md2)
  /\ (exists between,
        Logged.content md2
        = Logged.content md1 +:+ toc [a; b] +:+ between)
  /\ (forall level text id md,
        let h := Logged.mkHeading
                   (Repeat "#" (clamp level) +:+ " " +:+ text) id in
        Logged.Heading level text id md
        = Ok tt (Logged.mkMarkdown
                   (Logged.content md +:+ rendered h +:+ nl +:+ nl)
                   (Logged.headings md ++ [h]))).
Proof.
  apply (TableOfContents_replays_headings
           [Logged.CHeading 1 "A" EmptyString; Logged.CHeading 2 "B" "b"]
           [Logged.CHeading 7 "C" EmptyString]); reflexivity.
Defined.

(** ** Tables *)

Lemma foldl_append (f : string -> string) (acc : string) (l : list string) :
  foldl (fun acc x => acc +:+ f x) acc l = acc +:+ cat (map f l).
Proof.
  revert acc. induction l as [|x l IH]; intros acc; simpl.
  - now rewrite append_nil_r.
  - now rewrite IH, append_assoc.
Qed.

Lemma cat_map_filter {A} (f : A -> string) (keep : A -> bool) (l : list A) :
  cat (map (fun x => if keep x then f x else EmptyString) l)
  = cat (map f (List.filter keep l)).
Proof.
  induction l as [|x l IH]; simpl; [reflexivity|].
  destruct (keep x); simpl; now rewrite IH.
Qed.

(** In the package with the flags, a table with headers and rows is the
    header line, one alignment cell for each entry of [align], and the
    rows of the right length; the other rows are skipped one by one. *)
Lemma Guarded_Table_does (headers : list string) (rows : list (list string))
    (align : list string) :
  headers <> [] -> rows <> [] ->
  does putG (Guarded.Table headers rows align)
       (table_fragment headers rows align).
Proof.
  intros Hh Hr. unfold Guarded.Table.
  destruct headers as [|h headers]; [contradiction|].
  destruct rows as [|r rows]; [contradiction|].
  cbv zeta. change (Nat.eqb (length (h :: headers)) 0 ||
                    Nat.eqb (length (r :: rows)) 0) with false. cbv iota.
  eapply does_eq.
  - apply (does_bind putG putG_putG); [apply Guarded_WriteString_does|].
    apply (does_bind putG putG_putG);
      [|apply Guarded_WriteString_does].
    apply (does_range putG putG_nil putG_putG) with
      (f := fun (_ : nat) row =>
              if Nat.eqb (length row) (length (h :: headers))
              then table_row row else EmptyString).
    intros i row.
    destruct (Nat.eqb (length row) (length (h :: headers))); simpl.
    + apply Guarded_WriteString_does.
    + apply (does_ret putG putG_nil).
  - unfold table_fragment.
    rewrite lines_from_const, cat_map_filter, foldl_append.
    fold (table_row (h :: headers)). unfold Guarded.align_case, align_cell.
    now rewrite !append_assoc.
Qed.

(** In the package with the log, every row is written, whatever its
    length. *)
Lemma Logged_Table_does (headers : list string) (rows : list (list string))
    (align : list string) :
  does putL (Logged.Table headers rows align)
       (table_row headers
        +:+ cat (map Logged.align_case align) +:+ "|" +:+ nl
        +:+ cat (map table_row rows) +:+ nl).
Proof.
  unfold Logged.Table. cbv zeta.
  eapply does_eq.
  - apply (does_bind putL putL_putL); [apply Logged_WriteString_does|].
    apply (does_bind putL putL_putL); [apply Logged_WriteString_does|].
    apply (does_bind putL putL_putL); [|apply Logged_WriteString_does].
    apply (does_range putL putL_nil putL_putL) with
      (f := fun (_ : nat) row => table_row row).
    intros i row. apply Logged_WriteString_does.
  - rewrite lines_from_const, foldl_append, append_nil_l.
    fold (table_row headers). now rewrite !append_assoc.
Qed.

(** Both packages build the same alignment line. *)
Lemma alignment_lines_agree (align : list string) :
  cat (map Logged.align_case align) +:+ "|"
  = "|" +:+ cat (map align_cell align).
Proof.
  induction align as [|a align IH]; [reflexivity|].
  simpl. rewrite append_assoc, IH.
  unfold Logged.align_case, align_cell.
  repeat match goal with |- context [if ?b then _ else _] => destruct b end;
    reflexivity.
Qed.

(** C3.  In the package with the flags, [Table] with headers and rows
    appends the header line [| h1 | h2 | ... |], then the alignment line
    with one cell for each entry of [align] ([:---|] for left, [:---:|] for
    center, [---:|] for right, [---|] for anything else), then each row
    that has as many cells as there are headers, as [| c1 | c2 | ... |];
    a row of another length is skipped on its own and the rows after it are
    still written.  The table of [Name], [Age] and the row [John], [30] is
    what the text says, in both packages.  In the package with the log,
    [Table] has no test on the length of a row: the row of the single cell
    [John] is written. *)
Theorem Table_row_length_check :
  (forall headers rows align,
      headers <> [] -> rows <> [] ->
      does putG (Guarded.Table headers rows align)
           (table_fragment headers rows align))
  /\ (forall md,
        Guarded.Table ["Name"; "Age"] [["John"; "30"]] ["left"; "center"] md
        = Ok tt (putG ("| Name | Age |" +:+ nl +:+ "|:---|:---:|" +:+ nl
                       +:+ "| John | 30 |" +:+ nl +:+ nl) md))
  /\ (forall md,
        Logged.Table ["Name"; "Age"] [["John"; "30"]] ["left"; "center"] md
        = Ok tt (putL ("| Name | Age |" +:+ nl +:+ "|:---|:---:|" +:+ nl
                       +:+ "| John | 30 |" +:+ nl +:+ nl) md))
  /\ Logged.Table ["Name"; "Age"] [["John"]; ["Jane"; "25"]]
       ["left"; "center"] Logged.New
     = Ok tt (Logged.mkMarkdown
                ("| Name | Age |" +:+ nl +:+ "|:---|:---:|" +:+ nl
                 +:+ "| John |" +:+ nl
                 +:+ "| Jane | 25 |" +:+ nl +:+ nl)
                []).
Proof.
  split; [exact Guarded_Table_does|].
  split; [|split; [|reflexivity]].
  - intros md. now rewrite Guarded_Table_does by discriminate.
  - intros md. now rewrite Logged_Table_does.
Qed.

Lemma Table_row_length_check_witness :
  Guarded.Table ["Name"; "Age"] [["John"]; ["Jane"; "25"]] ["left"; "center"]
    (Guarded.New Guarded.StandardMarkdown false)
  = Ok tt (Guarded.mkMarkdown
             ("| Name | Age |" +:+ nl +:+ "|:---|:---:|" +:+ nl
              +:+ "| Jane | 25 |" +:+ nl +:+ nl)
             Guarded.StandardMarkdown false).
Proof.
  apply (proj1 Table_row_length_check ["Name"; "Age"]
           [["John"]; ["Jane"; "25"]] ["left"; "center"]); discriminate.
Defined.

(** ** Headings *)

Lemma clamp_cases (level : Z) :
  clamp level = if (1 <=? level) && (level <=? 6) then level else 1.
Proof.
  unfold clamp.
  destruct (Z.ltb_spec level 1), (Z.gtb_spec level 6),
    (Z.leb_spec 1 level), (Z.leb_spec level 6); simpl; lia.
Qed.

(** The count handed to [strings.Repeat] is never negative. *)
Lemma level_in_range (level : Z) : 1 <= clamp level <= 6.
Proof.
  unfold clamp.
  destruct (Z.ltb_spec level 1), (Z.gtb_spec level 6); simpl; lia.
Qed.

Lemma Guarded_Heading_does (level : Z) (text id attributes : string) :
  text <> EmptyString ->
  does putG (Guarded.Heading level text id attributes)
       (Repeat "#" (clamp level) +:+ " " +:+ text +:+ anchor id
        +:+ (if String.eqb attributes EmptyString then EmptyString
             else " {" +:+ attributes +:+ "}")
        +:+ nl +:+ nl).
Proof.
  intros Htext. unfold Guarded.Heading. cbv zeta.
  rewrite (eqb_empty_false _ Htext). fold (clamp level).
  eapply does_eq; [apply Guarded_WriteString_does|].
  unfold anchor.
  destruct (String.eqb id EmptyString),
    (String.eqb attributes EmptyString); simpl;
    now rewrite ?append_assoc, ?append_nil_l.
Qed.

(** An empty text makes [Heading] of the package with the flags return at
    once. *)
Lemma Guarded_Heading_empty_text (level : Z) (id attributes : string)
    (md : Guarded.Markdown) :
  Guarded.Heading level EmptyString id attributes md = Ok tt md.
Proof. reflexivity. Qed.

(** C4.  For every level and every text that is not empty, [Heading]
    appends [n] characters [#], where [n] is the level when it lies between
    1 and 6 and 1 otherwise, then a space, the text, then [ {#id}] when the
    id is not empty, then, in the package with the flags, [ {attributes}]
    when the attributes are not empty, then two line ends, and nothing
    more.  The package with the log has no attributes; the package with the
    flags called with empty attributes appends what the package with the
    log appends.  Level 7 gives what level 1 gives, whatever the
    attributes. *)
Theorem Heading_fragment_with_attributes (level : Z)
    (text id attributes : string) :
  text <> EmptyString ->
  let n := if (1 <=? level) && (level <=? 6) then level else 1 in
  let head := hashes n +:+ " " +:+ text +:+ anchor id in
  String.length (hashes n) = Z.to_nat n
  /\ (forall md,
        Guarded.Heading level text id attributes md
        = Ok tt (putG (head +:+ attribute_suffix attributes +:+ nl +:+ nl)
                   md))
  /\ (forall md,
        Guarded.Heading level text id EmptyString md
        = Ok tt (putG (head +:+ nl +:+ nl) md))
  /\ (forall md,
        Logged.Heading level text id md
        = Ok tt (Logged.mkMarkdown (Logged.content md +:+ head +:+ nl +:+ nl)
                   (Logged.headings md
                    ++ [Logged.mkHeading (hashes n +:+ " " +:+ text) id])))
  /\ (forall md,
        Guarded.Heading 7 "X" EmptyString attributes md
        = Guarded.Heading 1 "X" EmptyString attributes md)
  /\ (forall md,
        Logged.Heading 7 "X" EmptyString md
        = Logged.Heading 1 "X" EmptyString md).
Proof.
  intros Htext n head. subst head.
  assert (Hn : clamp level = n) by apply clamp_cases.
  split; [apply hashes_length|].
  split; [|split; [|split; [|split; reflexivity]]].
  - intros md. rewrite (Guarded_Heading_does level text id attributes Htext).
    rewrite Hn, Repeat_hash. unfold attribute_suffix.
    now rewrite !append_assoc.
  - intros md. rewrite (Guarded_Heading_does level text id EmptyString Htext).
    rewrite Hn, Repeat_hash. simpl. now rewrite append_nil_l, !append_assoc.
  - intros md. rewrite Logged_Heading_run. cbv zeta.
    unfold rendered, anchor. simpl.
    rewrite Hn, Repeat_hash. now rewrite !append_assoc.
Qed.

Lemma Heading_fragment_with_attributes_witness :
  (forall md,
      Guarded.Heading 7 "X" "x" "class=y" md
      = Ok tt (putG ("# X {#x} {class=y}" +:+ nl +:+ nl) md))
  /\ (forall md,
        Guarded.Heading 7 "X" EmptyString EmptyString md
        = Ok tt (putG ("# X" +:+ nl +:+ nl) md))
  /\ (forall md,
        Logged.Heading 3 "X" "x" md
        = Ok tt (Logged.mkMarkdown
                   (Logged.content md +:+ "### X {#x}" +:+ nl +:+ nl)
                   (Logged.headings md ++ [Logged.mkHeading "### X" "x"]))).
Proof.
  split; [|split].
  - apply (Heading_fragment_with_attributes 7 "X" "x" "class=y").
    discriminate.
  - apply (Heading_fragment_with_attributes 7 "X" EmptyString EmptyString).
    discriminate.
  - apply (Heading_fragment_with_attributes 3 "X" "x" EmptyString).
    discriminate.
Defined.

(** With attributes, [Heading] of the package with the flags appends more
    than the [#] characters, the text and the anchor: level 1, the text
    [T], no id and the attributes [class=x] give the line
    [# T {class=x}], not the line [# T]. *)
Lemma Heading_fragment_counterexample :
  Guarded.Heading 1 "T" EmptyString "class=x"
    (Guarded.New Guarded.StandardMarkdown false)
  = Ok tt (Guarded.mkMarkdown ("# T {class=x}" +:+ nl +:+ nl)
             Guarded.StandardMarkdown false)
  /\ Guarded.Heading 1 "T" EmptyString "class=x"
       (Guarded.New Guarded.StandardMarkdown false)
     <> Ok tt (putG (hashes 1 +:+ " " +:+ "T" +:+ anchor EmptyString
                     +:+ nl +:+ nl)
                 (Guarded.New Guarded.StandardMarkdown false)).
Proof. split; [reflexivity | discriminate]. Qed.

(** ** Task lists *)

(** In the package with the flags [TaskList] returns for every list of
    items and every list of marks: the mark of an item is read only when
    its index is in range, an item beyond the marks is unchecked, and an
    item with an empty text is skipped on its own. *)
Lemma Guarded_TaskList_does (items : list string) (checked : list bool) :
  does putG (Guarded.TaskList items checked)
       (if Nat.eqb (length items) 0 then EmptyString
        else lines_from (task_line checked) 0%nat items +:+ nl).
Proof.
  unfold Guarded.TaskList.
  destruct (Nat.eqb (length items) 0); [apply (does_ret putG putG_nil)|].
  apply (does_bind putG putG_putG); [|apply Guarded_WriteString_does].
  apply (does_range putG putG_nil putG_putG).
  intros i item. unfold task_line.
  destruct (String.eqb item EmptyString); [apply (does_ret putG putG_nil)|].
  intros md. unfold bind, index.
  destruct (Nat.ltb_spec i (length checked)) as [Hlt|Hge].
  - destruct (lookup_lt_is_Some_2 checked i Hlt) as [c Hc].
    rewrite Hc. simpl. now destruct c.
  - rewrite (proj2 (lookup_ge_None checked i)) by exact Hge. reflexivity.
Qed.

(** In the package with the log, a mark that is missing stops the loop
    with a panic at the first item that has none. *)
Lemma Logged_TaskList_panics (items : list string) (checked : list bool)
    (md : Logged.Markdown) :
  (length checked < length items)%nat ->
  exists md', Logged.TaskList items checked md = Panic md'.
Proof.
  intros Hshort. unfold Logged.TaskList, range.
  assert (Hloop : forall (rest : list string) (i : nat) (md0 : Logged.Markdown),
             (i <= length checked < i + length rest)%nat ->
             exists md', for_range
               (fun i item =>
                  bind (index checked i) (fun c =>
                    Logged.WriteString
                      ("- [" +:+ (if c : bool then "x" else " ") +:+ "] "
                       +:+ item +:+ nl))) i rest md0 = Panic md').
  { induction rest as [|item rest IH]; intros i md0 Hi; simpl in Hi.
    - lia.
    - simpl. unfold bind at 1. unfold bind at 1. unfold index.
      destruct (checked !! i) as [c|] eqn:Hc.
      + simpl. apply IH. apply lookup_lt_Some in Hc. lia.
      + simpl. now exists md0. }
  destruct (Hloop items 0%nat md) as [md' Hmd']; [lia|].
  exists md'. cbv zeta. now apply bind_panic.
Qed.

(** C5.  In the package with the flags, [TaskList] returns for every list
    of items and every list of marks, also a shorter one: the item at index
    [i] is written as [- [x] item] when [i] is below the length of the marks
    and the mark at [i] is true, as [- [ ] item] otherwise, and an item
    with an empty text is skipped on its own; the items [A], [B] with the
    single mark [true] give the two lines and the empty line.  In the
    package with the log, [TaskList] reads [checked[i]] without a test of
    the index: whenever the marks are fewer than the items it panics with
    an index out of range, on [A], [B] and [true] after it wrote the line
    of [A]. *)
Theorem TaskList_short_checked :
  (forall items checked,
      does putG (Guarded.TaskList items checked)
           (if Nat.eqb (length items) 0 then EmptyString
            else lines_from (task_line checked) 0%nat items +:+ nl))
  /\ (forall md,
        Guarded.TaskList ["A"; "B"] [true] md
        = Ok tt (putG ("- [x] A" +:+ nl +:+ "- [ ] B" +:+ nl +:+ nl) md))
  /\ (forall items checked md,
        (length checked < length items)%nat ->
        exists md', Logged.TaskList items checked md = Panic md')
  /\ Logged.TaskList ["A"; "B"] [true] Logged.New
     = Panic (Logged.mkMarkdown ("- [x] A" +:+ nl) []).
Proof.
  split; [exact Guarded_TaskList_does|].
  split; [|split; [exact Logged_TaskList_panics | reflexivity]].
  intros md. now rewrite Guarded_TaskList_does.
Qed.

Lemma TaskList_short_checked_witness :
  exists md',
    Logged.TaskList ["A"; "B"; "C"] [true; false] Logged.New = Panic md'.
Proof.
  apply (proj1 (proj2 (proj2 TaskList_short_checked))
           ["A"; "B"; "C"] [true; false] Logged.New).
  simpl. lia.
Defined.

(** ** Escaping *)

Lemma passes_nil (chars : list ascii) : foldl pass EmptyString chars = EmptyString.
Proof. induction chars as [|c chars IH]; [reflexivity | exact IH]. Qed.

Lemma passes_app (chars : list ascii) (s t : string) :
  foldl pass (s +:+ t) chars = foldl pass s chars +:+ foldl pass t chars.
Proof.
  revert s t. induction chars as [|c chars IH]; intros s t; [reflexivity|].
  simpl. rewrite <- IH. f_equal. apply ReplaceAll_app.
Qed.

(** A sequence of whole-string replacements is a scan that sends each byte
    through all of them. *)
Lemma passes_scan (chars : list ascii) (text : string) :
  foldl pass text chars
  = scan (fun c => foldl pass (String c EmptyString) chars) text.
Proof.
  induction text as [|c text IH]; [apply passes_nil|].
  change (String c text) with (String c EmptyString +:+ text).
  now rewrite passes_app, IH.
Qed.

Lemma scan_ext (f g : ascii -> string) (text : string) :
  (forall c, f c = g c) -> scan f text = scan g text.
Proof.
  intros Hfg. induction text as [|c text IH]; [reflexivity|].
  simpl. now rewrite Hfg, IH.
Qed.

(** In the package with the log the backslash comes first and once in
    [specialChars]: [Escape] is the scan that puts one backslash in front
    of each special character, the backslash included. *)
Lemma Logged_Escape_scan (text : string) :
  yields (Logged.Escape text) (scan escape_once text).
Proof.
  intros md. unfold Logged.Escape. cbv zeta.
  rewrite (range_with_ret pass). f_equal.
  rewrite passes_scan. apply scan_ext.
  intros [[] [] [] [] [] [] [] []]; vm_compute; reflexivity.
Qed.

(** In the package with the flags the backslash comes twice in
    [specialChars]: the second pass doubles the backslashes that the first
    pass wrote, so a backslash of the text becomes four. *)
Lemma Guarded_Escape_scan (text : string) :
  yields (Guarded.Escape text)
    (scan (fun c => if Ascii.eqb c "\"%char then "\\\\" else escape_once c)
       text).
Proof.
  intros md. unfold Guarded.Escape.
  rewrite (range_with_ret pass). f_equal.
  rewrite passes_scan. apply scan_ext.
  intros [[] [] [] [] [] [] [] []]; vm_compute; reflexivity.
Qed.

(** C6.  In the package with the log, [Escape] puts exactly one backslash
    in front of each of the fifteen special characters and leaves the other
    bytes as they are, as one scan from left to right would: the backslash
    comes first in [specialChars], so a backslash that [Escape] wrote is
    not escaped again, [a*b] gives [a\*b] and one backslash gives two.  In
    the package with the flags, [specialChars] starts with two
    backslashes, so the backslash is escaped a second time: every backslash
    of the text becomes four, and [Escape] of one backslash returns four
    characters, not two. *)
Theorem Escape_backslash :
  (forall text, yields (Logged.Escape text) (scan escape_once text))
  /\ (forall md, Logged.Escape "a*b" md = Ok "a\*b" md)
  /\ (forall md, Logged.Escape "\" md = Ok "\\" md)
  /\ (forall text,
        yields (Guarded.Escape text)
          (scan (fun c => if Ascii.eqb c "\"%char then "\\\\"
                          else escape_once c) text))
  /\ (forall md, Guarded.Escape "a*b" md = Ok "a\*b" md)
  /\ (forall md, Guarded.Escape "\" md = Ok "\\\\" md).
Proof.
  split; [exact Logged_Escape_scan|].
  split; [intros md; reflexivity|].
  split; [intros md; reflexivity|].
  split; [exact Guarded_Escape_scan|].
  split; intros md; reflexivity.
Qed.

(** ** Front matter *)

(** In the package with the flags the front matter holds the lines of
    [title], [author] and [date], in this order, each when the map has the
    key. *)
Lemma Guarded_FrontMatter_does (metadata : gmap string string) :
  does putG (Guarded.FrontMatter metadata)
       ("---" +:+ nl
        +:+ meta_line metadata "title"
        +:+ meta_line metadata "author"
        +:+ meta_line metadata "date"
        +:+ "---" +:+ nl +:+ nl).
Proof.
  unfold Guarded.FrontMatter. cbv zeta.
  eapply does_eq.
  - apply (does_bind putG putG_putG); [apply Guarded_WriteString_does|].
    apply (does_bind putG putG_putG); [|apply Guarded_WriteString_does].
    apply (does_range putG putG_nil putG_putG) with
      (f := fun (_ : nat) key => meta_line metadata key).
    intros i key. unfold meta_line.
    destruct (metadata !! key);
      [apply Guarded_WriteString_does | apply (does_ret putG putG_nil)].
  - simpl. now rewrite !append_assoc, append_nil_l.
Qed.

(** A key other than the three is dropped: it changes nothing. *)
Lemma Guarded_FrontMatter_other_key (metadata : gmap string string)
    (key value : string) (md : Guarded.Markdown) :
  key <> "title" -> key <> "author" -> key <> "date" ->
  Guarded.FrontMatter (<[key := value]> metadata) md
  = Guarded.FrontMatter metadata md.
Proof.
  intros Ht Ha Hd. rewrite !Guarded_FrontMatter_does.
  unfold meta_line. now rewrite !lookup_insert_ne by done.
Qed.

(** In the package with the log the front matter holds a line for every
    entry of the map, in the order of the range. *)
Lemma Logged_FrontMatter_does (pairs : list (string * string)) :
  does putL (Logged.FrontMatter pairs)
       ("---" +:+ nl
        +:+ cat (map (fun kv => fst kv +:+ ": " +:+ dquote +:+ snd kv
                                +:+ dquote +:+ nl) pairs)
        +:+ "---" +:+ nl +:+ nl).
Proof.
  unfold Logged.FrontMatter.
  eapply does_eq.
  - apply (does_bind putL putL_putL); [apply Logged_WriteString_does|].
    apply (does_bind putL putL_putL); [|apply Logged_WriteString_does].
    apply (does_range putL putL_nil putL_putL) with
      (f := fun (_ : nat) kv => fst kv +:+ ": " +:+ dquote +:+ snd kv
                                +:+ dquote +:+ nl).
    intros i kv. apply Logged_WriteString_does.
  - rewrite lines_from_const. now rewrite !append_assoc.
Qed.

(** C7.  In the package with the flags, [FrontMatter] appends the fence
    [---], then the lines [key: "value"] of [title], [author] and [date],
    in this order, each only when the map has the key, then the closing
    fence and an empty line; any other key of the map is dropped, so the
    map with [title] and [extra] gives the line of [title] alone.  In the
    package with the log, [FrontMatter] ranges over the whole map: for the
    same map, whatever the order in which the range yields the two
    entries, the line of [extra] with the value [ignored] is written next
    to the line of [title]. *)
Theorem FrontMatter_keys :
  (forall metadata,
      does putG (Guarded.FrontMatter metadata)
           ("---" +:+ nl
            +:+ meta_line metadata "title"
            +:+ meta_line metadata "author"
            +:+ meta_line metadata "date"
            +:+ "---" +:+ nl +:+ nl))
  /\ (forall metadata key value md,
        key <> "title" -> key <> "author" -> key <> "date" ->
        Guarded.FrontMatter (<[key := value]> metadata) md
        = Guarded.FrontMatter metadata md)
  /\ (forall md,
        Guarded.FrontMatter {[ "title" := "T"; "extra" := "ignored" ]} md
        = Ok tt (putG ("---" +:+ nl
                       +:+ "title: " +:+ dquote +:+ "T" +:+ dquote +:+ nl
                       +:+ "---" +:+ nl +:+ nl) md))
  /\ (forall pairs,
        Logged.range_of {[ "title" := "T"; "extra" := "ignored" ]} pairs ->
        let title := "title: " +:+ dquote +:+ "T" +:+ dquote +:+ nl in
        let extra := "extra: " +:+ dquote +:+ "ignored" +:+ dquote +:+ nl in
        Logged.FrontMatter pairs Logged.New
        = Ok tt (Logged.mkMarkdown
                   ("---" +:+ nl +:+ title +:+ extra +:+ "---" +:+ nl +:+ nl)
                   [])
        \/ Logged.FrontMatter pairs Logged.New
           = Ok tt (Logged.mkMarkdown
                      ("---" +:+ nl +:+ extra +:+ title +:+ "---" +:+ nl
                       +:+ nl) [])).
Proof.
  split; [exact Guarded_FrontMatter_does|].
  split; [exact Guarded_FrontMatter_other_key|].
  split.
  - intros md. rewrite Guarded_FrontMatter_does. unfold meta_line.
    assert (Hmap : forall key : string,
               ({[ "title" := "T"; "extra" := "ignored" ]}
                 : gmap string string) !! key
               = if String.eqb key "title" then Some "T"
                 else if String.eqb key "extra" then Some "ignored"
                 else None).
    { intros key.
      destruct (String.eqb_spec key "title") as [->|Ht]; [reflexivity|].
      rewrite lookup_insert_ne by congruence.
      destruct (String.eqb_spec key "extra") as [->|He];
        [apply lookup_singleton_eq|].
      apply lookup_singleton_ne. congruence. }
    now rewrite !Hmap.
  - intros pairs Hrange title extra. unfold Logged.range_of in Hrange.
    assert (Hlist : map_to_list
                      ({[ "title" := "T"; "extra" := "ignored" ]}
                        : gmap string string)
                    = [("extra", "ignored"); ("title", "T")])
      by (vm_compute; reflexivity).
    rewrite Hlist in Hrange. symmetry in Hrange.
    apply Permutation_length_2_inv in Hrange as [-> | ->].
    + right. reflexivity.
    + left. reflexivity.
Qed.

Lemma FrontMatter_keys_witness :
  Logged.FrontMatter [("extra", "ignored"); ("title", "T")] Logged.New
  = Ok tt (Logged.mkMarkdown
             ("---" +:+ nl
              +:+ "title: " +:+ dquote +:+ "T" +:+ dquote +:+ nl
              +:+ "extra: " +:+ dquote +:+ "ignored" +:+ dquote +:+ nl
              +:+ "---" +:+ nl +:+ nl) [])
  \/ Logged.FrontMatter [("extra", "ignored"); ("title", "T")] Logged.New
     = Ok tt (Logged.mkMarkdown
                ("---" +:+ nl
                 +:+ "extra: " +:+ dquote +:+ "ignored" +:+ dquote +:+ nl
                 +:+ "title: " +:+ dquote +:+ "T" +:+ dquote +:+ nl
                 +:+ "---" +:+ nl +:+ nl) []).
Proof.
  apply (proj2 (proj2 (proj2 FrontMatter_keys))
           [("extra", "ignored"); ("title", "T")]).
  unfold Logged.range_of. vm_compute. reflexivity.
Defined.

(** C8.  In the package with the flags, [Heading] with an empty text
    returns at once, for every level, id and attributes: nothing is
    appended; that package keeps no heading log.  In the package with the
    log, [Heading] has no test on the text: a call with an empty text
    appends the [#] characters, a space, the anchor if any and two line
    ends, and logs the heading, so that the next [TableOfContents] lists
    it. *)
Theorem Heading_empty_text :
  (forall level id attributes md,
      Guarded.Heading level EmptyString id attributes md = Ok tt md)
  /\ (forall level id md,
        Logged.Heading level EmptyString id md
        = Ok tt (Logged.mkMarkdown
                   (Logged.content md +:+ hashes (clamp level) +:+ " "
                    +:+ anchor id +:+ nl +:+ nl)
                   (Logged.headings md
                    ++ [Logged.mkHeading (hashes (clamp level) +:+ " ") id])))
  /\ Logged.run [Logged.CHeading 1 EmptyString EmptyString;
                 Logged.CTableOfContents] Logged.New
     = Ok tt (Logged.mkMarkdown
                ("# " +:+ nl +:+ nl
                 +:+ "## Table of Contents" +:+ nl +:+ "- # " +:+ nl +:+ nl)
                [Logged.mkHeading "# " EmptyString]).
Proof.
  split; [exact Guarded_Heading_empty_text|].
  split; [|reflexivity].
  intros level id md. rewrite Logged_Heading_run. cbv zeta.
  unfold rendered, anchor. simpl.
  rewrite Repeat_hash. now rewrite !append_assoc.
Qed.

(** ** The two ways to apply formats *)

(** The index of [formats[i]] is always in range, and the formats below
    [n] are applied from the last to the first. *)
Lemma Guarded_ApplyFormatting_from_take (formats : list string) (n : nat)
    (text : string) (md : Guarded.Markdown) :
  (n <= length formats)%nat ->
  Guarded.ApplyFormatting_from formats n text md
  = Ok (foldr Guarded.format_case text (take n formats)) md.
Proof.
  revert text. induction n as [|i IH]; intros text Hn; [reflexivity|].
  simpl Guarded.ApplyFormatting_from. unfold bind, index.
  destruct (lookup_lt_is_Some_2 formats i) as [f Hf]; [lia|].
  rewrite Hf. simpl. rewrite IH by lia.
  now rewrite (take_S_r formats i f Hf), foldr_app.
Qed.

(** The loop of the package with the flags runs from the last format to
    the first: the first format ends outermost. *)
Lemma Guarded_ApplyFormatting_foldr (text : string) (formats : list string) :
  yields (Guarded.ApplyFormatting text formats)
         (foldr Guarded.format_case text formats).
Proof.
  intros md. unfold Guarded.ApplyFormatting.
  rewrite (Guarded_ApplyFormatting_from_take formats (length formats)) by lia.
  now rewrite take_ge by lia.
Qed.

(** The loop of the package with the log runs from the first format to the
    last: the last format ends outermost. *)
Lemma Logged_applyFormatting_foldl (text : string) (formats : list string) :
  yields (Logged.applyFormatting text formats)
         (foldl (fun text format => inline_case format text) text formats).
Proof.
  intros md. unfold Logged.applyFormatting. revert text.
  induction formats as [|format formats IH]; intros text; [reflexivity|].
  simpl. unfold bind at 1. rewrite <- IH.
  unfold inline_case, Logged.Bold, Logged.Italic, Logged.Strikethrough,
    Logged.InlineCode, ret.
  repeat match goal with |- context [String.eqb format ?s] =>
           destruct (String.eqb format s) end; reflexivity.
Qed.

(** C9.  The two ways to apply a list of formats are not the same
    function.  [ApplyFormatting] goes through the list from its end, so the
    format listed first ends outermost; [applyFormatting] goes through it
    from its start, so the format listed last ends outermost.  For the text
    [text] and the formats [bold], [italic] the first returns [**_text_**]
    and the second [_**text**_]: a text that is not empty and two distinct
    formats that both know, with different results. *)
Theorem formatting_variants_differ :
  (forall text formats,
      yields (Guarded.ApplyFormatting text formats)
             (foldr Guarded.format_case text formats))
  /\ (forall text formats,
        yields (Logged.applyFormatting text formats)
               (foldl (fun text format => inline_case format text)
                  text formats))
  /\ (forall mdG mdL,
        Guarded.ApplyFormatting "text" ["bold"; "italic"] mdG
        = Ok "**_text_**" mdG
        /\ Logged.applyFormatting "text" ["bold"; "italic"] mdL
           = Ok "_**text**_" mdL)
  /\ (exists (text : string) (formats : list string),
        text <> EmptyString
        /\ (2 <= length formats)%nat
        /\ NoDup formats
        /\ Forall (fun format =>
                     format ∈ ["bold"; "italic"; "strikethrough"; "code"])
              formats
        /\ forall mdG mdL,
             returned (Guarded.ApplyFormatting text formats mdG)
             <> returned (Logged.applyFormatting text formats mdL)).
Proof.
  split; [exact Guarded_ApplyFormatting_foldr|].
  split; [exact Logged_applyFormatting_foldl|].
  split; [intros mdG mdL; split; reflexivity|].
  exists "text", ["bold"; "italic"].
  split; [discriminate|].
  split; [simpl; lia|].
  split.
  { apply NoDup_cons. split; [|apply NoDup_singleton].
    rewrite list_elem_of_singleton. discriminate. }
  split.
  { repeat constructor; rewrite !elem_of_cons; auto. }
  intros mdG mdL. simpl. discriminate.
Qed.

(** ** Queries *)

(** C10.  [Escape], [ColorText], [ToHTML] and [GetContent] are queries:
    on every document and for all arguments each of them returns, leaves
    the document as it was, buffer and heading log included, so that
    [GetContent] returns after the call what it returned before, and what
    it returns is a function of the document and of the arguments only. *)
Theorem queries_leave_document_unchanged :
  (forall text,
      reads (Guarded.Escape text)
        (fun _ => scan (fun c => if Ascii.eqb c "\"%char then "\\\\"
                                 else escape_once c) text))
  /\ (forall text color,
        reads (Guarded.ColorText text color)
          (fun md => if Guarded.useColor md
                     then "<span style=" +:+ dquote +:+ "color:" +:+ color
                          +:+ dquote +:+ ">" +:+ text +:+ "</span>"
                     else text))
  /\ reads Guarded.ToHTML
       (fun md => "<html>"
                  +:+ ReplaceAll (Guarded.content md) "010"%char "<br>"
                  +:+ "</html>")
  /\ reads Guarded.GetContent Guarded.content
  /\ (forall text, reads (Logged.Escape text) (fun _ => scan escape_once text))
  /\ reads Logged.ToHTML
       (fun md => "<html>"
                  +:+ ReplaceAll (Logged.content md) "010"%char "<br>"
                  +:+ "</html>")
  /\ reads Logged.GetContent Logged.content
  /\ (forall (q : Guarded.Call) md,
        match q with
        | Guarded.CEscape _ | Guarded.CColorText _ _ | Guarded.CToHTML
        | Guarded.CGetContent =>
            Guarded.GetContent (after (Guarded.exec q md))
            = Guarded.GetContent md
        | _ => True
        end)
  /\ (forall (q : Logged.Call) md,
        match q with
        | Logged.CEscape _ | Logged.CToHTML | Logged.CGetContent =>
            Logged.GetContent (after (Logged.exec q md))
            = Logged.GetContent md
            /\ Logged.headings (after (Logged.exec q md))
               = Logged.headings md
        | _ => True
        end).
Proof.
  split; [intros text md; apply Guarded_Escape_scan|].
  split; [intros text color md; unfold Guarded.ColorText;
          now destruct (Guarded.useColor md)|].
  split; [intros md; reflexivity|].
  split; [intros md; reflexivity|].
  split; [intros text md; apply Logged_Escape_scan|].
  split; [intros md; reflexivity|].
  split; [intros md; reflexivity|].
  split.
  - intros [] md; try exact I; unfold Guarded.exec, Guarded.drop, bind.
    + now rewrite Guarded_Escape_scan.
    + unfold Guarded.ColorText. now destruct (Guarded.useColor md).
    + reflexivity.
    + reflexivity.
  - intros [] md; try exact I; unfold Logged.exec, Logged.drop, bind.
    + now rewrite Logged_Escape_scan.
    + split; reflexivity.
    + split; reflexivity.
Qed.

(** * Further properties *)

Import Laws.

(** ** Calls that return after one append *)

Section Writes.
Context {R : Type} (put : string -> R -> R).
Context (put_nil : forall md, put EmptyString md = md).
Context (put_put : forall s t md, put t (put s md) = put (s +:+ t) md).

Lemma writes_ret : writes put (ret tt).
Proof. exists EmptyString. now apply does_ret. Qed.

Lemma writes_bind (m : M R unit) (k : unit -> M R unit) :
  writes put m -> writes put (k tt) -> writes put (bind m k).
Proof.
  intros [s Hs] [t Ht]. exists (s +:+ t). intros md.
  unfold bind. rewrite Hs, Ht. now rewrite put_put.
Qed.

Lemma writes_bind_yields {A} (m : M R A) (k : A -> M R unit) (a : A) :
  yields m a -> writes put (k a) -> writes put (bind m k).
Proof.
  intros Hm [s Hs]. exists s. intros md. unfold bind. rewrite Hm. apply Hs.
Qed.

Lemma writes_for_range {A} (body : nat -> A -> M R unit) (i : nat)
    (l : list A) :
  (forall i x, writes put (body i x)) -> writes put (for_range body i l).
Proof.
  intros Hbody. revert i. induction l as [|x l IH]; intros i; simpl.
  - apply writes_ret.
  - apply writes_bind; [apply Hbody | apply IH].
Qed.

Lemma writes_range {A} (l : list A) (body : nat -> A -> M R unit) :
  (forall i x, writes put (body i x)) -> writes put (range l body).
Proof. apply writes_for_range. Qed.

(** A query whose value is dropped writes nothing. *)
Lemma writes_query {A} (m : M R A) (f : R -> A) :
  reads m f -> writes put (bind m (fun _ => ret tt)).
Proof.
  intros Hm. exists EmptyString. intros md. unfold bind. rewrite Hm.
  unfold ret. now rewrite put_nil.
Qed.

Lemma writes_yields {A} (m : M R A) (a : A) :
  yields m a -> writes put (bind m (fun _ => ret tt)).
Proof. intros Hm. now apply (writes_query m (fun _ => a)). Qed.

Lemma adds_writes (m : M R unit) : adds put m -> writes put m.
Proof. intros [s [_ Hs]]. now exists s. Qed.

Lemma adds_bind_r (m : M R unit) (k : unit -> M R unit) :
  writes put m -> adds put (k tt) -> adds put (bind m k).
Proof.
  intros [s Hs] [t [Hne Ht]]. exists (s +:+ t). split.
  - destruct s; [exact Hne | discriminate].
  - intros md. unfold bind. rewrite Hs, Ht. now rewrite put_put.
Qed.
End Writes.

Ltac writesG_step :=
  lazymatch goal with
  | |- writes putG (ret tt) => apply (writes_ret putG putG_nil)
  | |- writes putG (Guarded.WriteString ?s) =>
      exists s; apply Guarded_WriteString_does
  | |- writes putG (bind (Guarded.ApplyFormatting _ _) _) =>
      eapply writes_bind_yields; [apply Guarded_ApplyFormatting_foldr|]
  | |- writes putG (bind _ _) => apply (writes_bind putG putG_putG)
  | |- writes putG (range _ _) =>
      apply (writes_range putG putG_nil putG_putG); intros ? ?
  | |- writes putG (if ?b then _ else _) => destruct b
  | |- writes putG (match ?x with _ => _ end) => destruct x
  end.

Ltac writesG := cbv zeta; repeat (writesG_step; cbv beta).

Lemma Guarded_exec_writes (c : Guarded.Call) : writes putG (Guarded.exec c).
Proof.
  destruct c; simpl Guarded.exec.
  - unfold Guarded.FrontMatter. writesG.
  - unfold Guarded.Heading. writesG.
  - eapply (writes_yields putG putG_nil).
    apply Guarded_ApplyFormatting_foldr.
  - unfold Guarded.Paragraph. writesG.
  - unfold Guarded.CodeBlock. writesG.
  - unfold Guarded.ReferenceLink. writesG.
  - unfold Guarded.Image. writesG.
  - unfold Guarded.List. writesG.
  - unfold Guarded.NestedList. writesG.
  - unfold Guarded.Table. writesG.
  - unfold Guarded.Blockquote. writesG.
  - unfold Guarded.HorizontalRule. writesG.
  - unfold Guarded.Footnote. writesG.
  - unfold Guarded.MultiLineFootnote. writesG.
  - unfold Guarded.DefinitionList. writesG.
  - eapply (writes_yields putG putG_nil).
    apply Guarded_Escape_scan.
  - unfold Guarded.CustomDiv. writesG.
  - eexists. apply Guarded_TaskList_does.
  - unfold Guarded.MermaidDiagram. writesG.
  - unfold Guarded.MathBlock. writesG.
  - eapply (writes_yields putG putG_nil). intros md. reflexivity.
  - eapply (writes_yields putG putG_nil). intros md. reflexivity.
  - eapply (writes_yields putG putG_nil). intros md. reflexivity.
  - apply (writes_query putG putG_nil) with
      (f := fun md => if Guarded.useColor md
                      then "<span style=" +:+ dquote +:+ "color:" +:+ color
                           +:+ dquote +:+ ">" +:+ text +:+ "</span>"
                      else text).
    intros md. unfold Guarded.ColorText. now destruct (Guarded.useColor md).
  - apply (writes_query putG putG_nil) with
      (f := fun md => "<html>"
                      +:+ ReplaceAll (Guarded.content md) "010"%char "<br>"
                      +:+ "</html>").
    intros md. reflexivity.
  - apply (writes_query putG putG_nil) with (f := Guarded.content).
    intros md. reflexivity.
Qed.

Lemma Guarded_exec_fragment (c : Guarded.Call) (md : Guarded.Markdown) :
  Guarded.exec c md = Ok tt (putG (fragment c) md).
Proof.
  destruct (Guarded_exec_writes c) as [s Hs].
  unfold fragment. rewrite (Hs (Guarded.New _ _)). simpl.
  rewrite append_nil_l. apply Hs.
Qed.

(** X1.  In the package with the flags every call returns, on every
    document and for all arguments: no index is read out of range.  What
    the call appends is the same on every document, so it depends neither
    on what the buffer holds nor on the flavor or the color flag, and the
    call leaves the flavor and the color flag as they were. *)
Theorem Guarded_call_returns (c : Guarded.Call) (md : Guarded.Markdown) :
  Guarded.exec c md
  = Ok tt (Guarded.mkMarkdown (Guarded.content md +:+ fragment c)
             (Guarded.flavor md) (Guarded.useColor md)).
Proof.
  destruct (Guarded_exec_writes c) as [s Hs].
  unfold fragment. rewrite (Hs (Guarded.New _ _)). simpl.
  rewrite append_nil_l. apply Hs.
Qed.

(** ** Where the package with the log panics *)

Ltac writesL_step :=
  lazymatch goal with
  | |- writes putL (ret tt) => apply (writes_ret putL putL_nil)
  | |- writes putL (Logged.WriteString ?s) =>
      exists s; apply Logged_WriteString_does
  | |- writes putL (bind (Logged.applyFormatting _ _) _) =>
      eapply writes_bind_yields; [apply Logged_applyFormatting_foldl|]
  | |- writes putL (bind _ _) => apply (writes_bind putL putL_putL)
  | |- writes putL (range _ _) =>
      apply (writes_range putL putL_nil putL_putL); intros ? ?
  | |- writes putL (if ?b then _ else _) => destruct b
  | |- writes putL (match ?x with _ => _ end) => destruct x
  end.

Ltac writesL := cbv zeta; repeat (writesL_step; cbv beta).

(** With a mark for every item the loop of [TaskList] never leaves the
    marks. *)
Lemma Logged_TaskList_does (items : list string) (checked : list bool) :
  (length items <= length checked)%nat ->
  does putL (Logged.TaskList items checked)
       (lines_from (task_line_unguarded checked) 0%nat items +:+ nl).
Proof.
  intros Hlen. unfold Logged.TaskList, range. cbv zeta.
  apply (does_bind putL putL_putL); [|apply Logged_WriteString_does].
  assert (Hloop : forall (rest : list string) (i : nat),
             (i + length rest <= length checked)%nat ->
             does putL
               (for_range
                  (fun i item =>
                     bind (index checked i) (fun c =>
                       Logged.WriteString
                         ("- [" +:+ (if c : bool then "x" else " ") +:+ "] "
                          +:+ item +:+ nl))) i rest)
               (lines_from (task_line_unguarded checked) i rest)).
  { induction rest as [|item rest IH]; intros i Hi; simpl in Hi |- *.
    - apply (does_ret putL putL_nil).
    - apply (does_bind putL putL_putL); [|apply IH; lia].
      intros md. unfold bind, index, task_line_unguarded.
      destruct (lookup_lt_is_Some_2 checked i) as [c Hc]; [lia|].
      rewrite Hc. reflexivity. }
  apply Hloop. simpl. lia.
Qed.

Lemma Logged_exec_returns (c : Logged.Call) (md : Logged.Markdown) :
  (forall items checked,
      c = Logged.CTaskList items checked ->
      (length items <= length checked)%nat) ->
  exists md', Logged.exec c md = Ok tt md'.
Proof.
  intros Htask.
  assert (Hwrites : writes putL (Logged.exec c) ->
                    exists md', Logged.exec c md = Ok tt md').
  { intros [s Hs]. exists (putL s md). apply Hs. }
  destruct c; simpl Logged.exec in *;
    try solve [apply Hwrites; autounfold with logged_api; writesL;
               try (eapply (writes_yields putL putL_nil); intros ?;
                    reflexivity)].
  - eexists. apply Logged_Heading_run.
  - eexists. apply Logged_TableOfContents_does.
  - apply Hwrites. unfold Logged.Paragraph. writesL.
  - eexists. apply (Logged_TaskList_does items checked).
    now apply Htask.
  - eexists. reflexivity.
  - eexists. reflexivity.
Qed.

(** X2.  In the package with the log a call panics in one case only:
    [TaskList] with fewer marks than items.  Every other call returns, for
    all arguments and on every document, and so does [TaskList] when each
    item has its mark. *)
Theorem Logged_panics_only_in_TaskList (c : Logged.Call)
    (md : Logged.Markdown) :
  (exists md', Logged.exec c md = Panic md')
  <-> (exists items checked,
          c = Logged.CTaskList items checked
          /\ (length checked < length items)%nat).
Proof.
  split.
  - intros [md' Hpanic].
    destruct c;
      try solve [match type of Hpanic with
                 | Logged.exec ?c _ = _ =>
                     destruct (Logged_exec_returns c md) as [md1 Hok];
                     [intros ? ? [=] | rewrite Hok in Hpanic; discriminate]
                 end].
    exists items, checked. split; [reflexivity|].
    destruct (Nat.le_gt_cases (length items) (length checked)) as [Hle|Hgt];
      [|exact Hgt].
    destruct (Logged_exec_returns (Logged.CTaskList items checked) md)
      as [md1 Hok].
    + now intros ? ? [= <- <-].
    + rewrite Hok in Hpanic. discriminate.
  - intros [items [checked [-> Hshort]]].
    apply Logged_TaskList_panics. exact Hshort.
Qed.


(** ** The guards of the package with the flags *)

Lemma append_inv_nil (s t : string) : s +:+ t = s -> t = EmptyString.
Proof.
  induction s as [|c s IH]; [now rewrite append_nil_l|].
  rewrite append_cons. intros [= H]. now apply IH.
Qed.

Lemma append_ne_r (s t : string) : t <> EmptyString -> s +:+ t <> EmptyString.
Proof. intros Ht. destruct s; [exact Ht | discriminate]. Qed.

Lemma nl_ne : nl <> EmptyString.
Proof. discriminate. Qed.

Ltac nonempty := repeat apply append_ne_r; first [apply nl_ne | discriminate].

Lemma Guarded_adds_changes (m : Guarded.M unit) (md : Guarded.Markdown) :
  adds putG m -> after (m md) <> md.
Proof.
  intros [s [Hne Hs]] Hmd. rewrite Hs in Hmd. simpl in Hmd.
  apply Hne. apply (append_inv_nil (Guarded.content md)).
  now rewrite <- Hmd at 2.
Qed.

(** A call leaves the document as it was exactly when its guard holds. *)
Lemma Guarded_unchanged_iff (m : Guarded.M unit) (md : Guarded.Markdown)
    (P : Prop) :
  P \/ ~ P ->
  (P -> does putG m EmptyString) -> (~ P -> adds putG m) ->
  after (m md) = md <-> P.
Proof.
  intros [HP|HnP] Hyes Hno.
  - split; [auto|]. intros _. rewrite (Hyes HP). simpl. apply putG_nil.
  - split; [|contradiction]. intros Hmd.
    now destruct (Guarded_adds_changes m md (Hno HnP)).
Qed.

Lemma empty_or_not (s : string) : s = EmptyString \/ s <> EmptyString.
Proof. destruct s; [now left | now right]. Qed.

Lemma nil_or_not {A} (l : list A) : l = [] \/ l <> [].
Proof. destruct l; [now left | now right]. Qed.

Ltac addsG_last :=
  lazymatch goal with
  | |- adds putG (Guarded.WriteString ?s) =>
      exists s; split; [nonempty | apply Guarded_WriteString_does]
  end.

Ltac addsG :=
  cbv zeta;
  repeat (lazymatch goal with
          | |- adds putG (bind _ _) =>
              apply (adds_bind_r putG putG_putG); [writesG|cbv beta]
          end);
  addsG_last.

Lemma adds_bind_yields {A} (m : Guarded.M A) (k : A -> Guarded.M unit) (a : A) :
  yields m a -> adds putG (k a) -> adds putG (bind m k).
Proof.
  intros Hm [s [Hne Hs]]. exists s. split; [exact Hne|].
  intros md. unfold bind. rewrite Hm. apply Hs.
Qed.

Ltac guard_true :=
  intros; subst; apply (does_ret putG putG_nil).

(** X3.  The guards of the package with the flags are exact: each guarded
    call leaves the document as it was when its required argument is
    empty, and only then; in every other case it appends at least one
    byte.  The required argument is the text of a paragraph, heading or
    blockquote, the code of a code block, the content of a custom div, the
    diagram, the equation, the list of items, the list of groups, each of
    label and text of a footnote, label and lines of a footnote of several
    lines, alt text and url of an image, label, text and url of a
    reference link, headers and rows of a table. *)
Theorem Guarded_guards_exact (md : Guarded.Markdown) :
  (forall level text id attributes,
      after (Guarded.Heading level text id attributes md) = md
      <-> text = EmptyString)
  /\ (forall text formats,
        after (Guarded.Paragraph text formats md) = md <-> text = EmptyString)
  /\ (forall language code,
        after (Guarded.CodeBlock language code md) = md <-> code = EmptyString)
  /\ (forall label text url,
        after (Guarded.ReferenceLink label text url md) = md
        <-> label = EmptyString \/ text = EmptyString \/ url = EmptyString)
  /\ (forall altText url,
        after (Guarded.Image altText url md) = md
        <-> altText = EmptyString \/ url = EmptyString)
  /\ (forall items isOrdered,
        after (Guarded.List items isOrdered md) = md <-> items = [])
  /\ (forall nestedItems isOrdered,
        after (Guarded.NestedList nestedItems isOrdered md) = md
        <-> nestedItems = [])
  /\ (forall headers rows align,
        after (Guarded.Table headers rows align md) = md
        <-> headers = [] \/ rows = [])
  /\ (forall text,
        after (Guarded.Blockquote text md) = md <-> text = EmptyString)
  /\ (forall label text,
        after (Guarded.Footnote label text md) = md
        <-> label = EmptyString \/ text = EmptyString)
  /\ (forall label lines,
        after (Guarded.MultiLineFootnote label lines md) = md
        <-> label = EmptyString \/ lines = [])
  /\ (forall className content_,
        after (Guarded.CustomDiv className content_ md) = md
        <-> content_ = EmptyString)
  /\ (forall items checked,
        after (Guarded.TaskList items checked md) = md <-> items = [])
  /\ (forall diagram,
        after (Guarded.MermaidDiagram diagram md) = md
        <-> diagram = EmptyString)
  /\ (forall equation,
        after (Guarded.MathBlock equation md) = md <-> equation = EmptyString).
Proof.
  repeat match goal with |- _ /\ _ => split end.
  - intros level text id attributes.
    apply Guarded_unchanged_iff; [apply empty_or_not | guard_true |].
    intros Hne. eexists. split; [|apply (Guarded_Heading_does _ _ _ _ Hne)].
    nonempty.
  - intros text formats.
    apply Guarded_unchanged_iff; [apply empty_or_not | guard_true |].
    intros Hne. unfold Guarded.Paragraph. rewrite (eqb_empty_false _ Hne).
    eapply adds_bind_yields; [apply Guarded_ApplyFormatting_foldr | addsG].
  - intros language code.
    apply Guarded_unchanged_iff; [apply empty_or_not | guard_true |].
    intros Hne. unfold Guarded.CodeBlock. rewrite (eqb_empty_false _ Hne).
    addsG.
  - intros label text url.
    apply Guarded_unchanged_iff.
    + destruct (empty_or_not label), (empty_or_not text),
        (empty_or_not url); tauto.
    + intros [-> | [-> | ->]]; unfold Guarded.ReferenceLink;
        rewrite ?String.eqb_refl, ?orb_true_r; apply (does_ret putG putG_nil).
    + intros Hne. unfold Guarded.ReferenceLink.
      rewrite !eqb_empty_false by tauto. simpl. addsG.
  - intros altText url.
    apply Guarded_unchanged_iff.
    + destruct (empty_or_not altText), (empty_or_not url); tauto.
    + intros [-> | ->]; unfold Guarded.Image;
        rewrite ?String.eqb_refl, ?orb_true_r; apply (does_ret putG putG_nil).
    + intros Hne. unfold Guarded.Image.
      rewrite !eqb_empty_false by tauto. simpl. addsG.
  - intros items isOrdered.
    apply Guarded_unchanged_iff; [apply nil_or_not | guard_true |].
    intros Hne. unfold Guarded.List.
    destruct items; [contradiction|]. cbn [length Nat.eqb]. addsG.
  - intros nestedItems isOrdered.
    apply Guarded_unchanged_iff; [apply nil_or_not | guard_true |].
    intros Hne. unfold Guarded.NestedList.
    destruct nestedItems; [contradiction|]. cbn [length Nat.eqb]. addsG.
  - intros headers rows align.
    apply Guarded_unchanged_iff.
    + destruct headers, rows; auto.
      right. intros [H|H]; discriminate.
    + intros [-> | ->]; unfold Guarded.Table; simpl;
        rewrite ?orb_true_r; apply (does_ret putG putG_nil).
    + intros Hne. eexists. split.
      2: { apply Guarded_Table_does; intros ->; tauto. }
      unfold table_fragment. nonempty.
  - intros text.
    apply Guarded_unchanged_iff; [apply empty_or_not | guard_true |].
    intros Hne. unfold Guarded.Blockquote. rewrite (eqb_empty_false _ Hne).
    addsG.
  - intros label text.
    apply Guarded_unchanged_iff.
    + destruct (empty_or_not label), (empty_or_not text); tauto.
    + intros [-> | ->]; unfold Guarded.Footnote;
        rewrite ?String.eqb_refl, ?orb_true_r; apply (does_ret putG putG_nil).
    + intros Hne. unfold Guarded.Footnote.
      rewrite !eqb_empty_false by tauto. simpl. addsG.
  - intros label lines.
    apply Guarded_unchanged_iff.
    + destruct (empty_or_not label), (nil_or_not lines); tauto.
    + intros [-> | ->]; unfold Guarded.MultiLineFootnote; simpl;
        rewrite ?orb_true_r; apply (does_ret putG putG_nil).
    + intros Hne. unfold Guarded.MultiLineFootnote.
      rewrite eqb_empty_false by tauto.
      destruct lines; [tauto|]. cbn [length Nat.eqb orb]. addsG.
  - intros className content_.
    apply Guarded_unchanged_iff; [apply empty_or_not | guard_true |].
    intros Hne. unfold Guarded.CustomDiv. rewrite (eqb_empty_false _ Hne).
    addsG.
  - intros items checked.
    apply Guarded_unchanged_iff; [apply nil_or_not | guard_true |].
    intros Hne. eexists. split; [|apply Guarded_TaskList_does].
    destruct items; [contradiction|]. cbn [length Nat.eqb]. nonempty.
  - intros diagram.
    apply Guarded_unchanged_iff; [apply empty_or_not | guard_true |].
    intros Hne. unfold Guarded.MermaidDiagram.
    rewrite (eqb_empty_false _ Hne). addsG.
  - intros equation.
    apply Guarded_unchanged_iff; [apply empty_or_not | guard_true |].
    intros Hne. unfold Guarded.MathBlock. rewrite (eqb_empty_false _ Hne).
    addsG.
Qed.

(** ** The package with the log has no guard *)

Ltac addsL_last :=
  lazymatch goal with
  | |- adds putL (Logged.WriteString ?s) =>
      exists s; split; [nonempty | apply Logged_WriteString_does]
  end.

Ltac addsL :=
  cbv zeta;
  repeat (lazymatch goal with
          | |- adds putL (bind _ _) =>
              apply (adds_bind_r putL putL_putL); [writesL|cbv beta]
          end);
  addsL_last.

Lemma Logged_Paragraph_adds (text : string) (formats : list string) :
  adds putL (Logged.Paragraph text formats).
Proof.
  eexists. split.
  2: { intros md. unfold Logged.Paragraph, bind.
       rewrite Logged_applyFormatting_foldl. apply Logged_WriteString_does. }
  nonempty.
Qed.

(** X4.  The package with the log has no guard at all: every call that
    writes, whenever it returns, appends at least one byte, also for empty
    texts and empty lists. *)
Theorem Logged_commands_always_write (c : Logged.Call)
    (md md' : Logged.Markdown) :
  command c = true ->
  Logged.exec c md = Ok tt md' ->
  exists s, s <> EmptyString /\ Logged.content md' = Logged.content md +:+ s.
Proof.
  intros Hcommand Hok.
  assert (Hadds : adds putL (Logged.exec c) ->
                  exists s, s <> EmptyString
                            /\ Logged.content md' = Logged.content md +:+ s).
  { intros [s [Hne Hs]]. exists s. split; [exact Hne|].
    rewrite Hs in Hok. now injection Hok as <-. }
  destruct c; try discriminate Hcommand; simpl Logged.exec in *;
    try solve [apply Hadds; autounfold with logged_api; addsL].
  - rewrite Logged_Heading_run in Hok. injection Hok as <-.
    eexists. split; [|reflexivity]. nonempty.
  - rewrite Logged_TableOfContents_does in Hok. injection Hok as <-.
    eexists. split; [|reflexivity]. unfold toc. nonempty.
  - apply Hadds. apply Logged_Paragraph_adds.
  - destruct (Nat.le_gt_cases (length items) (length checked)) as [Hle|Hgt].
    + rewrite (Logged_TaskList_does items checked Hle) in Hok.
      injection Hok as <-. eexists. split; [|reflexivity]. nonempty.
    + destruct (Logged_TaskList_panics items checked md Hgt) as [md1 Hp].
      rewrite Hp in Hok. discriminate.
Qed.

Lemma Logged_commands_always_write_witness :
  exists s,
    s <> EmptyString
    /\ Logged.content (after (Logged.exec (Logged.CUnorderedList []) Logged.New))
       = Logged.content Logged.New +:+ s.
Proof.
  apply (Logged_commands_always_write (Logged.CUnorderedList []) Logged.New);
    reflexivity.
Defined.

(** ** Complete lines *)

#[local] Instance tidyG_preorder : PreOrder tidyG.
Proof. split; unfold tidyG; [intros md; tauto | intros a b c; tauto]. Qed.

#[local] Instance tidyL_preorder : PreOrder tidyL.
Proof. split; unfold tidyL; [intros md; tauto | intros a b c; tauto]. Qed.

Lemma ends_nl_app (s t : string) :
  (exists u, t = u +:+ nl) -> exists u, s +:+ t = u +:+ nl.
Proof. intros [u ->]. exists (s +:+ u). now rewrite append_assoc. Qed.

Lemma ends_nl_nl : exists u, nl = u +:+ nl.
Proof. now exists EmptyString. Qed.

Ltac ends_nl :=
  lazymatch goal with
  | |- exists u, nl = u +:+ nl => apply ends_nl_nl
  | |- exists u, _ +:+ _ = u +:+ nl => apply ends_nl_app; ends_nl
  end.

Lemma Guarded_WriteString_tidy (s : string) :
  (exists u, s = u +:+ nl) -> preserves tidyG (Guarded.WriteString s).
Proof. intros Hs md _. right. simpl. now apply ends_nl_app. Qed.

Lemma Logged_WriteString_tidy (s : string) :
  (exists u, s = u +:+ nl) -> preserves tidyL (Logged.WriteString s).
Proof. intros Hs md _. right. simpl. now apply ends_nl_app. Qed.

(** After [m], which returns, a computation that ends a line leaves
    complete lines, whatever [m] wrote. *)
Lemma Guarded_tidy_after (m : Guarded.M unit) (k : unit -> Guarded.M unit) :
  writes putG m ->
  (forall md, exists u, Guarded.content (after (k tt md)) = u +:+ nl) ->
  forall md, exists u, Guarded.content (after (bind m k md)) = u +:+ nl.
Proof. intros [s Hs] Hk md. unfold bind. rewrite Hs. apply Hk. Qed.

Lemma Logged_tidy_after (m : Logged.M unit) (k : unit -> Logged.M unit) :
  writes putL m ->
  (forall md, exists u, Logged.content (after (k tt md)) = u +:+ nl) ->
  forall md, exists u, Logged.content (after (bind m k md)) = u +:+ nl.
Proof. intros [s Hs] Hk md. unfold bind. rewrite Hs. apply Hk. Qed.

Ltac tidy_step :=
  lazymatch goal with
  | |- preserves _ (ret _) => apply preserves_ret; try typeclasses eauto
  | |- preserves _ (bind _ _) =>
      apply preserves_bind; [try typeclasses eauto | | intros ?]
  | |- preserves _ (range _ _) =>
      apply preserves_range; [try typeclasses eauto | intros ? ?]
  | |- preserves _ (range_with _ _ _) =>
      apply preserves_range_with; [try typeclasses eauto | intros ? ?]
  | |- preserves _ (index _ _) => apply preserves_index; try typeclasses eauto
  | |- preserves tidyG (Guarded.WriteString _) =>
      apply Guarded_WriteString_tidy; ends_nl
  | |- preserves tidyL (Logged.WriteString _) =>
      apply Logged_WriteString_tidy; ends_nl
  | |- preserves _ Logged.get_headings =>
      apply preserves_read; [try typeclasses eauto | reflexivity]
  | |- preserves _ Logged.GetContent =>
      apply preserves_read; [try typeclasses eauto | reflexivity]
  | |- preserves _ Guarded.GetContent =>
      apply preserves_read; [try typeclasses eauto | reflexivity]
  | |- preserves _ (Guarded.ColorText _ _) =>
      apply preserves_read;
      [try typeclasses eauto | apply Guarded_ColorText_read]
  | |- preserves _ (if ?b then _ else _) => destruct b
  | |- preserves _ (match ?x with _ => _ end) => destruct x
  end.

Ltac tidy_body := cbv zeta; repeat tidy_step.

Lemma Guarded_ApplyFormatting_tidy (text : string) (formats : list string) :
  preserves tidyG (Guarded.ApplyFormatting text formats).
Proof.
  apply preserves_read; [typeclasses eauto|].
  intros md. now rewrite Guarded_ApplyFormatting_foldr.
Qed.

Lemma Guarded_MultiLineFootnote_tidy (label : string) (lines : list string) :
  preserves tidyG (Guarded.MultiLineFootnote label lines).
Proof.
  unfold Guarded.MultiLineFootnote.
  destruct (String.eqb label EmptyString || Nat.eqb (length lines) 0);
    [apply preserves_ret; typeclasses eauto|].
  intros md _. right. revert md.
  apply Guarded_tidy_after; [writesG|].
  apply Guarded_tidy_after; [writesG|].
  intros md. simpl. apply ends_nl_app. ends_nl.
Qed.

Lemma Guarded_exec_tidy (c : Guarded.Call) : preserves tidyG (Guarded.exec c).
Proof.
  destruct c; simpl Guarded.exec;
    try apply Guarded_MultiLineFootnote_tidy;
    autounfold with guarded_api; tidy_body;
    apply Guarded_ApplyFormatting_tidy.
Qed.

Lemma Logged_MultiLineFootnote_tidy (label : string) (lines : list string) :
  preserves tidyL (Logged.MultiLineFootnote label lines).
Proof.
  unfold Logged.MultiLineFootnote.
  intros md _. right. revert md.
  apply Logged_tidy_after; [writesL|].
  apply Logged_tidy_after; [writesL|].
  intros md. simpl. apply ends_nl_app. ends_nl.
Qed.

Lemma Logged_Heading_tidy (level : Z) (text id : string) :
  preserves tidyL (Logged.Heading level text id).
Proof.
  intros md _. right. rewrite Logged_Heading_run. simpl.
  apply ends_nl_app. ends_nl.
Qed.

Lemma Logged_exec_tidy (c : Logged.Call) : preserves tidyL (Logged.exec c).
Proof.
  destruct c; simpl Logged.exec;
    try apply Logged_MultiLineFootnote_tidy;
    try apply Logged_Heading_tidy;
    autounfold with logged_api; tidy_body.
Qed.

Lemma replay_snoc {R C} (exec : C -> M R unit) (calls : list C) (c : C)
    (md : R) :
  replay exec (calls ++ [c]) md = after (exec c (replay exec calls md)).
Proof. unfold replay. now rewrite foldl_app. Qed.

(** X5.  A document that starts empty holds complete lines at every
    moment between two calls: after any sequence of calls, in either
    package, the buffer is empty or ends with a line end, also when calls
    of the sequence panicked and the program went on. *)
Theorem buffer_holds_complete_lines :
  (forall calls flavor useColor,
      complete_lines
        (Guarded.content
           (replay Guarded.exec calls (Guarded.New flavor useColor))))
  /\ (forall calls,
        complete_lines
          (Logged.content (replay Logged.exec calls Logged.New))).
Proof.
  split.
  - intros calls flavor useColor.
    induction calls as [|c calls IH] using rev_ind; [now left|].
    rewrite replay_snoc. now apply Guarded_exec_tidy.
  - intros calls.
    induction calls as [|c calls IH] using rev_ind; [now left|].
    rewrite replay_snoc. now apply Logged_exec_tidy.
Qed.

(** ** What [Escape] keeps *)

Lemma length_append (s t : string) :
  String.length (s +:+ t) = (String.length s + String.length t)%nat.
Proof.
  induction s as [|c s IH]; [reflexivity|].
  rewrite append_cons. simpl. now rewrite IH.
Qed.

(** A scan can be read back when the image of a byte is never empty and
    tells which byte it comes from. *)
Lemma scan_inj (esc : ascii -> string) :
  (forall c, esc c <> EmptyString) ->
  (forall c d s t, esc c +:+ s = esc d +:+ t -> c = d) ->
  forall s t, scan esc s = scan esc t -> s = t.
Proof.
  intros Hne Hhead. induction s as [|c s IH]; intros [|d t] H; simpl in H.
  - reflexivity.
  - symmetry in H. destruct (esc d) eqn:Hd; [now destruct (Hne d)|].
    discriminate.
  - destruct (esc c) eqn:Hc; [now destruct (Hne c)|]. discriminate.
  - pose proof (Hhead _ _ _ _ H) as ->.
    apply String.app_inj in H. f_equal. now apply IH.
Qed.

Lemma special_backslash : special "\"%char = true.
Proof. reflexivity. Qed.

Lemma escape_once_head (c d : ascii) (s t : string) :
  escape_once c +:+ s = escape_once d +:+ t -> c = d.
Proof.
  unfold escape_once.
  destruct (special c) eqn:Hc, (special d) eqn:Hd;
    rewrite ?append_cons, ?append_nil_l; intros [= H1 H2]; subst;
    try reflexivity; rewrite special_backslash in *; discriminate.
Qed.

Lemma escape_once_ne (c : ascii) : escape_once c <> EmptyString.
Proof. unfold escape_once. now destruct (special c). Qed.

Lemma escape_twice_head (c d : ascii) (s t : string) :
  escape_twice c +:+ s = escape_twice d +:+ t -> c = d.
Proof.
  unfold escape_twice, escape_once.
  destruct (Ascii.eqb_spec c "\"%char) as [->|Hc],
    (Ascii.eqb_spec d "\"%char) as [->|Hd]; [reflexivity| | |].
  - destruct (special d) eqn:Hsd; rewrite ?append_cons, ?append_nil_l;
      intros [= H1 H2]; subst; try congruence.
  - destruct (special c) eqn:Hsc; rewrite ?append_cons, ?append_nil_l;
      intros [= H1 H2]; subst; try congruence.
  - destruct (special c) eqn:Hsc, (special d) eqn:Hsd;
      rewrite ?append_cons, ?append_nil_l; intros [= H1 H2]; subst;
      congruence.
Qed.

Lemma escape_twice_ne (c : ascii) : escape_twice c <> EmptyString.
Proof.
  unfold escape_twice, escape_once.
  now destruct (Ascii.eqb c "\"%char), (special c).
Qed.

Lemma Guarded_Escape_twice (text : string) :
  yields (Guarded.Escape text) (scan escape_twice text).
Proof. apply Guarded_Escape_scan. Qed.

Lemma scan_escape_once_length (text : string) :
  String.length (scan escape_once text)
  = (String.length text + count_bytes special text)%nat.
Proof.
  induction text as [|c text IH]; [reflexivity|].
  simpl. rewrite length_append, IH. unfold escape_once.
  destruct (special c); simpl; lia.
Qed.

Lemma scan_escape_twice_length (text : string) :
  String.length (scan escape_twice text)
  = (String.length text + count_bytes special text
     + 2 * count_bytes (fun c => Ascii.eqb c "\"%char) text)%nat.
Proof.
  induction text as [|c text IH]; [reflexivity|].
  cbn [scan count_bytes]. rewrite length_append, IH.
  unfold escape_twice, escape_once.
  destruct (Ascii.eqb_spec c "\"%char) as [->|Hc].
  - rewrite special_backslash. simpl. lia.
  - destruct (special c); simpl; lia.
Qed.

Lemma scan_fixed (text : string) :
  count_bytes special text = 0%nat ->
  scan escape_once text = text /\ scan escape_twice text = text.
Proof.
  induction text as [|c text IH]; [now split|].
  simpl. destruct (special c) eqn:Hc; [discriminate|].
  intros H. destruct (IH H) as [-> ->].
  unfold escape_twice, escape_once. rewrite Hc.
  destruct (Ascii.eqb_spec c "\"%char) as [->|Hb];
    [now rewrite special_backslash in Hc|].
  now split.
Qed.

(** X6.  [Escape] loses nothing: in either package two texts have the same
    escaped text only when they are the same text. *)
Theorem Escape_is_injective (s t : string) (mdG : Guarded.Markdown)
    (mdL : Logged.Markdown) :
  (returned (Guarded.Escape s mdG) = returned (Guarded.Escape t mdG)
   <-> s = t)
  /\ (returned (Logged.Escape s mdL) = returned (Logged.Escape t mdL)
      <-> s = t).
Proof.
  rewrite !Guarded_Escape_twice, !Logged_Escape_scan. simpl.
  split; (split; [intros [= H] | now intros ->]).
  - exact (scan_inj escape_twice escape_twice_ne escape_twice_head s t H).
  - exact (scan_inj escape_once escape_once_ne escape_once_head s t H).
Qed.

(** X7.  [Escape] returns its text unchanged exactly when the text holds
    none of the fifteen special characters, and escaping an escaped text
    again gives the same exactly in that case: on any text with a special
    character a second [Escape] changes the result of the first.  This
    holds in both packages. *)
Theorem Escape_fixed_points (text : string) (mdG : Guarded.Markdown)
    (mdL : Logged.Markdown) :
  (returned (Logged.Escape text mdL) = Some text
   <-> count_bytes special text = 0%nat)
  /\ (returned (Guarded.Escape text mdG) = Some text
      <-> count_bytes special text = 0%nat)
  /\ (exists once,
        returned (Logged.Escape text mdL) = Some once
        /\ (returned (Logged.Escape once mdL) = Some once
            <-> count_bytes special text = 0%nat))
  /\ (exists once,
        returned (Guarded.Escape text mdG) = Some once
        /\ (returned (Guarded.Escape once mdG) = Some once
            <-> count_bytes special text = 0%nat)).
Proof.
  assert (HL : scan escape_once text = text
               <-> count_bytes special text = 0%nat).
  { split; [|apply scan_fixed].
    intros H. pose proof (scan_escape_once_length text) as Hlen.
    rewrite H in Hlen. lia. }
  assert (HG : scan escape_twice text = text
               <-> count_bytes special text = 0%nat).
  { split; [|apply scan_fixed].
    intros H. pose proof (scan_escape_twice_length text) as Hlen.
    rewrite H in Hlen. lia. }
  split; [|split; [|split]].
  - rewrite Logged_Escape_scan. simpl. rewrite <- HL.
    split; [now intros [= ->] | now intros ->].
  - rewrite Guarded_Escape_twice. simpl. rewrite <- HG.
    split; [now intros [= ->] | now intros ->].
  - exists (scan escape_once text). rewrite !Logged_Escape_scan. simpl.
    split; [reflexivity|]. rewrite <- HL. split.
    + intros [= H].
      exact (scan_inj escape_once escape_once_ne escape_once_head _ _ H).
    + intros H. now rewrite !H.
  - exists (scan escape_twice text). rewrite !Guarded_Escape_twice. simpl.
    split; [reflexivity|]. rewrite <- HG. split.
    + intros [= H].
      exact (scan_inj escape_twice escape_twice_ne escape_twice_head _ _ H).
    + intros H. now rewrite !H.
Qed.

Lemma count_bytes_le (p : ascii -> bool) (s : string) :
  (count_bytes p s <= String.length s)%nat.
Proof.
  induction s as [|c s IH]; simpl; [lia|]. destruct (p c); lia.
Qed.

Lemma count_special_backslash (s : string) :
  (count_bytes special s + 2 * count_bytes (fun c => Ascii.eqb c "\"%char) s
   <= 3 * String.length s)%nat.
Proof.
  induction s as [|c s IH]; simpl; [lia|].
  destruct (special c), (Ascii.eqb c "\"%char); lia.
Qed.

(** X8.  [Escape] only inserts: in the package with the log the escaped
    text is longer than the text by the number of special characters in
    it, so at most twice as long; in the package with the flags each
    backslash of the text costs two more bytes, so the escaped text is at
    most four times as long. *)
Theorem Escape_length (text : string) (mdG : Guarded.Markdown)
    (mdL : Logged.Markdown) :
  (exists escaped,
      returned (Logged.Escape text mdL) = Some escaped
      /\ String.length escaped
         = (String.length text + count_bytes special text)%nat
      /\ (String.length escaped <= 2 * String.length text)%nat)
  /\ (exists escaped,
        returned (Guarded.Escape text mdG) = Some escaped
        /\ String.length escaped
           = (String.length text + count_bytes special text
              + 2 * count_bytes (fun c => Ascii.eqb c "\"%char) text)%nat
        /\ (String.length escaped <= 4 * String.length text)%nat).
Proof.
  split.
  - exists (scan escape_once text). rewrite Logged_Escape_scan.
    split; [reflexivity|]. rewrite scan_escape_once_length.
    split; [reflexivity|]. pose proof (count_bytes_le special text). lia.
  - exists (scan escape_twice text). rewrite Guarded_Escape_twice.
    split; [reflexivity|]. rewrite scan_escape_twice_length.
    split; [reflexivity|]. pose proof (count_special_backslash text). lia.
Qed.

(** ** The HTML view *)

Lemma count_bytes_app (p : ascii -> bool) (s t : string) :
  count_bytes p (s +:+ t) = (count_bytes p s + count_bytes p t)%nat.
Proof.
  induction s as [|c s IH]; [reflexivity|].
  rewrite append_cons. simpl. rewrite IH. lia.
Qed.

Lemma ReplaceAll_br_count (s : string) :
  count_bytes line_end (ReplaceAll s "010"%char "<br>") = 0%nat.
Proof.
  induction s as [|c s IH]; [reflexivity|].
  cbn [ReplaceAll]. rewrite count_bytes_app, IH.
  destruct (Ascii.eqb c "010"%char) eqn:Hc; [reflexivity|].
  cbn [count_bytes]. unfold line_end. now rewrite Hc.
Qed.

Lemma ReplaceAll_br_length (s : string) :
  String.length (ReplaceAll s "010"%char "<br>")
  = (String.length s + 3 * count_bytes line_end s)%nat.
Proof.
  induction s as [|c s IH]; [reflexivity|].
  cbn [ReplaceAll count_bytes String.length].
  rewrite length_append, IH. unfold line_end.
  destruct (Ascii.eqb c "010"%char); simpl; lia.
Qed.

Lemma html_no_line_end (s : string) :
  let html := "<html>" +:+ ReplaceAll s "010"%char "<br>" +:+ "</html>" in
  count_bytes line_end html = 0%nat
  /\ String.length html
     = (13 + String.length s + 3 * count_bytes line_end s)%nat.
Proof.
  cbv zeta. split.
  - rewrite !count_bytes_app, ReplaceAll_br_count. reflexivity.
  - rewrite !length_append, ReplaceAll_br_length. simpl. lia.
Qed.

(** X9.  The HTML view never holds a line end: [ToHTML] returns the buffer
    between [<html>] and [</html>] with each line end turned into [<br>],
    so its length is the length of the buffer, plus three for each line
    end of the buffer, plus thirteen.  This holds in both packages. *)
Theorem ToHTML_has_no_line_end (mdG : Guarded.Markdown)
    (mdL : Logged.Markdown) :
  (exists html,
      returned (Guarded.ToHTML mdG) = Some html
      /\ count_bytes line_end html = 0%nat
      /\ String.length html
         = (13 + String.length (Guarded.content mdG)
            + 3 * count_bytes line_end (Guarded.content mdG))%nat)
  /\ (exists html,
        returned (Logged.ToHTML mdL) = Some html
        /\ count_bytes line_end html = 0%nat
        /\ String.length html
           = (13 + String.length (Logged.content mdL)
              + 3 * count_bytes line_end (Logged.content mdL))%nat).
Proof.
  split; (eexists; split; [reflexivity | apply html_no_line_end]).
Qed.

(** X10.  The HTML view follows the buffer: after any call of the package
    with the flags, [ToHTML] returns what it returned before the call with
    the converted fragment of the call put in front of the closing
    [</html>]. *)
Theorem ToHTML_after_call (c : Guarded.Call) (md : Guarded.Markdown) :
  exists body,
    returned (Guarded.ToHTML md) = Some ("<html>" +:+ body +:+ "</html>")
    /\ returned (Guarded.ToHTML (after (Guarded.exec c md)))
       = Some ("<html>" +:+ body
               +:+ ReplaceAll (fragment c) "010"%char "<br>" +:+ "</html>").
Proof.
  exists (ReplaceAll (Guarded.content md) "010"%char "<br>").
  split; [reflexivity|].
  rewrite Guarded_exec_fragment. simpl.
  now rewrite ReplaceAll_app, append_assoc.
Qed.

(** ** Lists of formats *)

Lemma foldl_rev_foldr {A B} (f : A -> B -> B) (a : B) (l : list A) :
  foldl (fun b x => f x b) a (rev l) = foldr f a l.
Proof.
  induction l as [|x l IH]; [reflexivity|].
  simpl. now rewrite foldl_app, IH.
Qed.

Lemma format_case_common (format text : string) :
  common_format format = true ->
  Guarded.format_case format text = inline_case format text.
Proof.
  unfold common_format, Guarded.format_case, inline_case.
  destruct (String.eqb_spec format "bold") as [->|Hb]; [reflexivity|].
  destruct (String.eqb_spec format "italic") as [->|Hi]; [reflexivity|].
  destruct (String.eqb_spec format "strikethrough") as [->|Hs];
    [reflexivity|].
  destruct (String.eqb_spec format "code") as [->|Hc]; [reflexivity|].
  discriminate.
Qed.

Lemma format_case_unknown (format text : string) :
  flagged_format format = false -> Guarded.format_case format text = text.
Proof.
  unfold flagged_format, common_format, Guarded.format_case.
  destruct (String.eqb format "strikethrough"),
    (String.eqb format "bold"), (String.eqb format "italic"),
    (String.eqb format "underline"), (String.eqb format "subscript"),
    (String.eqb format "superscript"), (String.eqb format "code");
    simpl; intros H; try discriminate H; reflexivity.
Qed.

Lemma inline_case_unknown (format text : string) :
  common_format format = false -> inline_case format text = text.
Proof.
  unfold common_format, inline_case.
  destruct (String.eqb format "bold"), (String.eqb format "italic"),
    (String.eqb format "strikethrough"), (String.eqb format "code");
    simpl; intros H; try discriminate H; reflexivity.
Qed.

(** X11.  On formats that both packages know, the two packages differ by
    the direction only: [ApplyFormatting] on a list of formats returns what
    [applyFormatting] returns on the reversed list. *)
Theorem formatting_is_reversed (text : string) (formats : list string)
    (mdG : Guarded.Markdown) (mdL : Logged.Markdown) :
  forallb common_format formats = true ->
  returned (Guarded.ApplyFormatting text formats mdG)
  = returned (Logged.applyFormatting text (rev formats) mdL).
Proof.
  intros Hcommon.
  rewrite Guarded_ApplyFormatting_foldr, Logged_applyFormatting_foldl.
  simpl. f_equal.
  rewrite (foldl_rev_foldr inline_case).
  induction formats as [|format formats IH]; [reflexivity|].
  simpl in Hcommon. apply andb_prop in Hcommon as [Hf Hrest].
  simpl. rewrite (IH Hrest). now apply format_case_common.
Qed.

Lemma formatting_is_reversed_witness :
  returned (Guarded.ApplyFormatting "x" ["bold"; "italic"; "code"]
              (Guarded.New Guarded.StandardMarkdown false))
  = returned (Logged.applyFormatting "x" ["code"; "italic"; "bold"]
                Logged.New).
Proof.
  apply (formatting_is_reversed "x" ["bold"; "italic"; "code"]).
  reflexivity.
Defined.

(** X12.  A format name that a package does not know is skipped without a
    word: taking the unknown names out of the list changes nothing, in
    [ApplyFormatting] for the seven names of the package with the flags and
    in [applyFormatting] for the four names of the package with the log,
    which skips [underline], [subscript] and [superscript] too. *)
Theorem unknown_formats_are_skipped (text : string) (formats : list string)
    (mdG : Guarded.Markdown) (mdL : Logged.Markdown) :
  Guarded.ApplyFormatting text formats mdG
  = Guarded.ApplyFormatting text (List.filter flagged_format formats) mdG
  /\ Logged.applyFormatting text formats mdL
     = Logged.applyFormatting text (List.filter common_format formats) mdL.
Proof.
  rewrite !Guarded_ApplyFormatting_foldr, !Logged_applyFormatting_foldl.
  split; f_equal.
  - induction formats as [|format formats IH]; [reflexivity|].
    simpl. destruct (flagged_format format) eqn:Hf; simpl.
    + now rewrite IH.
    + now rewrite format_case_unknown.
  - revert text. induction formats as [|format formats IH]; intros text;
      [reflexivity|].
    simpl. destruct (common_format format) eqn:Hf; simpl.
    + apply IH.
    + rewrite inline_case_unknown by exact Hf. apply IH.
Qed.

(** ** Where the two packages agree *)

Ltac doesG_step :=
  lazymatch goal with
  | |- does putG (ret tt) _ => apply (does_ret putG putG_nil)
  | |- does putG (Guarded.WriteString _) _ => apply Guarded_WriteString_does
  | |- does putG (bind _ _) _ => eapply (does_bind putG putG_putG)
  | |- does putG (range _ _) _ =>
      eapply (does_range putG putG_nil putG_putG); intros ? ?
  end.

Ltac doesL_step :=
  lazymatch goal with
  | |- does putL (ret tt) _ => apply (does_ret putL putL_nil)
  | |- does putL (Logged.WriteString _) _ => apply Logged_WriteString_does
  | |- does putL (bind _ _) _ => eapply (does_bind putL putL_putL)
  | |- does putL (range _ _) _ =>
      eapply (does_range putL putL_nil putL_putL); intros ? ?
  end.

Ltac doesG := cbv zeta; repeat (doesG_step; cbv beta iota).
Ltac doesL := cbv zeta; repeat (doesL_step; cbv beta iota).

Lemma lines_from_ext {A} (f g : nat -> A -> string) (i : nat) (l : list A) :
  (forall j x, f j x = g j x) -> lines_from f i l = lines_from g i l.
Proof.
  intros Hfg. revert i. induction l as [|x l IH]; intros i; [reflexivity|].
  simpl. now rewrite Hfg, IH.
Qed.

(** X13.  On a list that is not empty the two packages write the same
    list: [List] without order is [UnorderedList], [List] with order is
    [OrderedList], with the numbers counted from one. *)
Theorem List_agrees (items : list string) :
  items <> [] ->
  same_fragment (Guarded.List items false) (Logged.UnorderedList items)
  /\ same_fragment (Guarded.List items true) (Logged.OrderedList items).
Proof.
  intros Hne. destruct items as [|item items]; [contradiction|].
  split.
  - eexists. split.
    + unfold Guarded.List. cbn [length Nat.eqb]. doesG.
    + unfold Logged.UnorderedList. doesL.
  - eexists. split.
    + unfold Guarded.List. cbn [length Nat.eqb]. doesG.
    + unfold Logged.OrderedList. doesL.
Qed.

Lemma List_agrees_witness :
  same_fragment (Guarded.List ["a"; "b"] false)
                (Logged.UnorderedList ["a"; "b"])
  /\ same_fragment (Guarded.List ["a"; "b"] true)
                   (Logged.OrderedList ["a"; "b"]).
Proof. apply (List_agrees ["a"; "b"]). discriminate. Defined.

Lemma Guarded_NestedList_unordered_does (groups : list (list string)) :
  groups <> [] ->
  does putG (Guarded.NestedList groups false)
       (lines_from
          (fun (_ : nat) group =>
             lines_from (fun j item =>
                           if Nat.eqb j 0 then "- " +:+ item +:+ nl
                           else "  - " +:+ item +:+ nl) 0%nat group)
          0%nat groups +:+ nl).
Proof.
  intros Hne. destruct groups as [|group groups]; [contradiction|].
  unfold Guarded.NestedList. cbn [length Nat.eqb].
  apply (does_bind putG putG_putG); [|apply Guarded_WriteString_does].
  apply (does_range putG putG_nil putG_putG). intros i items.
  apply (does_range putG putG_nil putG_putG). intros j item.
  destruct (Nat.eqb j 0); apply Guarded_WriteString_does.
Qed.

Lemma Logged_NestedList_unordered_does (groups : list (list string)) :
  does putL (Logged.NestedList groups false)
       (lines_from
          (fun (_ : nat) group =>
             lines_from (fun level item =>
                           Repeat "  " (Z.of_nat level) +:+ "- " +:+ item
                           +:+ nl) 0%nat group)
          0%nat groups +:+ nl).
Proof.
  unfold Logged.NestedList.
  apply (does_bind putL putL_putL); [|apply Logged_WriteString_does].
  apply (does_range putL putL_nil putL_putL). intros i items.
  apply (does_range putL putL_nil putL_putL). intros j item.
  apply Logged_WriteString_does.
Qed.

Lemma lines_from_Forall {A} (P : A -> Prop) (f g : nat -> A -> string)
    (i : nat) (l : list A) :
  Forall P l -> (forall j x, P x -> f j x = g j x) ->
  lines_from f i l = lines_from g i l.
Proof.
  intros Hl Hfg. revert i.
  induction Hl as [|x l Hx Hl IH]; intros i; [reflexivity|].
  simpl. now rewrite (Hfg i x Hx), IH.
Qed.

(** X14.  Without order, the two packages write the same nested list when
    there is a group and no group has more than two entries: the first
    entry is a bullet and the second is indented by two spaces.  (From the
    third entry on the package with the log indents deeper and deeper,
    the package with the flags does not.) *)
Theorem NestedList_agrees (groups : list (list string)) :
  groups <> [] ->
  Forall (fun group => (length group <= 2)%nat) groups ->
  same_fragment (Guarded.NestedList groups false)
                (Logged.NestedList groups false).
Proof.
  intros Hne Hshort. eexists. split.
  - apply (Guarded_NestedList_unordered_does groups Hne).
  - eapply does_eq; [apply Logged_NestedList_unordered_does|].
    f_equal. apply (lines_from_Forall _ _ _ _ _ Hshort).
    intros _ group Hgroup.
    destruct group as [|a [|b [|c group]]]; simpl in Hgroup;
      [reflexivity | reflexivity | reflexivity | lia].
Qed.

Lemma NestedList_agrees_witness :
  same_fragment
    (Guarded.NestedList [["Item 1"; "Sub-item 1.1"]; ["Item 2"]] false)
    (Logged.NestedList [["Item 1"; "Sub-item 1.1"]; ["Item 2"]] false).
Proof.
  apply (NestedList_agrees [["Item 1"; "Sub-item 1.1"]; ["Item 2"]]).
  - discriminate.
  - repeat constructor.
Defined.

(** The third entry of a group is where the two packages part. *)
Lemma NestedList_differs_at_depth_two :
  Guarded.content
    (after (Guarded.NestedList [["a"; "b"; "c"]] false
              (Guarded.New Guarded.StandardMarkdown false)))
  <> Logged.content
       (after (Logged.NestedList [["a"; "b"; "c"]] false Logged.New)).
Proof. discriminate. Qed.

Lemma filter_all {A} (keep : A -> bool) (l : list A) :
  Forall (fun x => keep x = true) l -> List.filter keep l = l.
Proof.
  induction 1 as [|x l Hx Hl IH]; [reflexivity|].
  simpl. now rewrite Hx, IH.
Qed.

(** X15.  When there are headers and rows and every row has as many cells
    as there are headers, the two packages write the same table, whatever
    the alignments. *)
Theorem Table_agrees (headers : list string) (rows : list (list string))
    (align : list string) :
  headers <> [] -> rows <> [] ->
  Forall (fun row => length row = length headers) rows ->
  same_fragment (Guarded.Table headers rows align)
                (Logged.Table headers rows align).
Proof.
  intros Hh Hr Hrows. eexists. split.
  - apply (Guarded_Table_does headers rows align Hh Hr).
  - eapply does_eq; [apply Logged_Table_does|].
    unfold table_fragment. rewrite filter_all.
    + rewrite <- (append_assoc (cat (map Logged.align_case align)) "|").
      now rewrite alignment_lines_agree, !append_assoc.
    + eapply Forall_impl; [exact Hrows|].
      intros row Hrow. simpl in Hrow. now apply Nat.eqb_eq.
Qed.

Lemma Table_agrees_witness :
  same_fragment
    (Guarded.Table ["Name"; "Age"] [["John"; "30"]; ["Jane"; "25"]]
       ["left"; "center"])
    (Logged.Table ["Name"; "Age"] [["John"; "30"]; ["Jane"; "25"]]
       ["left"; "center"]).
Proof.
  apply Table_agrees; [discriminate | discriminate | repeat constructor].
Defined.

(** X16.  When there is an item, no item is empty and every item has its
    mark, the two packages write the same task list. *)
Theorem TaskList_agrees (items : list string) (checked : list bool) :
  items <> [] ->
  Forall (fun item => item <> EmptyString) items ->
  (length items <= length checked)%nat ->
  same_fragment (Guarded.TaskList items checked)
                (Logged.TaskList items checked).
Proof.
  intros Hne Hitems Hlen. eexists. split.
  - eapply does_eq; [apply Guarded_TaskList_does|].
    destruct items as [|item items]; [contradiction|].
    cbn [length Nat.eqb]. reflexivity.
  - eapply does_eq; [apply (Logged_TaskList_does items checked Hlen)|].
    f_equal. symmetry. apply (lines_from_Forall _ _ _ _ _ Hitems).
    intros j item Hitem. unfold task_line, task_line_unguarded.
    now rewrite (eqb_empty_false _ Hitem).
Qed.

Lemma TaskList_agrees_witness :
  same_fragment (Guarded.TaskList ["Task 1"; "Task 2"] [true; false])
                (Logged.TaskList ["Task 1"; "Task 2"] [true; false]).
Proof.
  apply TaskList_agrees;
    [discriminate | repeat constructor; discriminate | simpl; lia].
Defined.

(** X17.  On arguments that pass the guards of the package with the flags,
    the two packages write the same block: code block, image, blockquote,
    horizontal rule, footnote, footnote of several lines, custom div,
    diagram, equation; and the same paragraph, when the formats are known
    to both and the package with the log gets them in the reverse
    order. *)
Theorem blocks_agree :
  (forall language code,
      code <> EmptyString ->
      same_fragment (Guarded.CodeBlock language code)
                    (Logged.CodeBlock language code))
  /\ (forall altText url,
        altText <> EmptyString -> url <> EmptyString ->
        same_fragment (Guarded.Image altText url) (Logged.Image altText url))
  /\ (forall text,
        text <> EmptyString ->
        same_fragment (Guarded.Blockquote text) (Logged.Blockquote text))
  /\ same_fragment Guarded.HorizontalRule Logged.HorizontalRule
  /\ (forall label text,
        label <> EmptyString -> text <> EmptyString ->
        same_fragment (Guarded.Footnote label text)
                      (Logged.Footnote label text))
  /\ (forall label lines,
        label <> EmptyString -> lines <> [] ->
        same_fragment (Guarded.MultiLineFootnote label lines)
                      (Logged.MultiLineFootnote label lines))
  /\ (forall className content_,
        content_ <> EmptyString ->
        same_fragment (Guarded.CustomDiv className content_)
                      (Logged.CustomDiv className content_))
  /\ (forall diagram,
        diagram <> EmptyString ->
        same_fragment (Guarded.MermaidDiagram diagram)
                      (Logged.MermaidDiagram diagram))
  /\ (forall equation,
        equation <> EmptyString ->
        same_fragment (Guarded.MathBlock equation)
                      (Logged.MathBlock equation))
  /\ (forall text formats,
        text <> EmptyString -> forallb common_format formats = true ->
        same_fragment (Guarded.Paragraph text formats)
                      (Logged.Paragraph text (rev formats))).
Proof.
  repeat match goal with |- _ /\ _ => split end.
  - intros language code Hc. eexists. split.
    + unfold Guarded.CodeBlock. rewrite (eqb_empty_false _ Hc). doesG.
    + unfold Logged.CodeBlock. doesL.
  - intros altText url Ha Hu. eexists. split.
    + unfold Guarded.Image. rewrite !eqb_empty_false by assumption.
      cbn [orb]. doesG.
    + unfold Logged.Image. doesL.
  - intros text Ht. eexists. split.
    + unfold Guarded.Blockquote. rewrite (eqb_empty_false _ Ht). doesG.
    + unfold Logged.Blockquote. doesL.
  - eexists. split.
    + unfold Guarded.HorizontalRule. doesG.
    + unfold Logged.HorizontalRule. doesL.
  - intros label text Hl Ht. eexists. split.
    + unfold Guarded.Footnote. rewrite !eqb_empty_false by assumption.
      cbn [orb]. doesG.
    + unfold Logged.Footnote. doesL.
  - intros label lines Hl Hlines.
    destruct lines as [|line lines]; [contradiction|]. eexists. split.
    + unfold Guarded.MultiLineFootnote. rewrite eqb_empty_false by assumption.
      cbn [length Nat.eqb orb]. doesG.
    + unfold Logged.MultiLineFootnote. doesL.
  - intros className content_ Hc. eexists. split.
    + unfold Guarded.CustomDiv. rewrite (eqb_empty_false _ Hc). doesG.
    + unfold Logged.CustomDiv. doesL.
  - intros diagram Hd. eexists. split.
    + unfold Guarded.MermaidDiagram. rewrite (eqb_empty_false _ Hd). doesG.
    + unfold Logged.MermaidDiagram. doesL.
  - intros equation He. eexists. split.
    + unfold Guarded.MathBlock. rewrite (eqb_empty_false _ He). doesG.
    + unfold Logged.MathBlock. doesL.
  - intros text formats Ht Hcommon.
    exists (foldr Guarded.format_case text formats +:+ nl +:+ nl). split.
    + intros md. unfold Guarded.Paragraph, bind.
      rewrite (eqb_empty_false _ Ht), Guarded_ApplyFormatting_foldr.
      reflexivity.
    + intros md. unfold Logged.Paragraph, bind.
      rewrite Logged_applyFormatting_foldl.
      rewrite (foldl_rev_foldr inline_case).
      replace (foldr inline_case text formats)
        with (foldr Guarded.format_case text formats); [reflexivity|].
      clear md. induction formats as [|format formats IH]; [reflexivity|].
      simpl in Hcommon. apply andb_prop in Hcommon as [Hf Hrest].
      simpl. rewrite (IH Hrest). now apply format_case_common.
Qed.

Lemma blocks_agree_witness :
  same_fragment (Guarded.Paragraph "x" ["bold"; "italic"])
                (Logged.Paragraph "x" ["italic"; "bold"]).
Proof.
  apply (proj2 (proj2 (proj2 (proj2 (proj2 (proj2 (proj2 (proj2
           (proj2 blocks_agree)))))))) "x" ["bold"; "italic"]).
  - discriminate.
  - reflexivity.
Defined.

(** ** Definition lists *)

Lemma Guarded_definition_block_does (definitions_ : gmap string (list string))
    (term : string) :
  term <> EmptyString ->
  let def := Guarded.mkOrderedDefinition term
               (default [] (definitions_ !! term)) in
  does putG
    (if String.eqb (Guarded.term def) EmptyString
        || Nat.eqb (length (Guarded.definitions def)) 0
     then ret tt
     else bind (Guarded.WriteString (Guarded.term def +:+ nl)) (fun _ =>
          bind (range (Guarded.definitions def) (fun _ definition =>
                  Guarded.WriteString (": " +:+ definition +:+ nl))) (fun _ =>
          Guarded.WriteString nl)))
    (definition_block definitions_ term).
Proof.
  intros Hterm. cbv zeta. unfold definition_block. simpl.
  rewrite (eqb_empty_false _ Hterm).
  destruct (default [] (definitions_ !! term)) as [|d defs].
  - apply (does_ret putG putG_nil).
  - cbn [length Nat.eqb orb].
    eapply does_eq.
    + doesG.
    + rewrite lines_from_const. simpl. now rewrite !append_assoc.
Qed.

(** X18.  [DefinitionList] writes two terms only, [Term 1] and then
    [Term 2], each with its definitions and only when it has some; every
    other term of the map is dropped, so that a map without the two terms
    leaves the document as it was. *)
Theorem DefinitionList_two_terms (definitions_ : gmap string (list string)) :
  does putG (Guarded.DefinitionList definitions_)
       (definition_block definitions_ "Term 1"
        +:+ definition_block definitions_ "Term 2")
  /\ (forall term defs md,
        term <> "Term 1" -> term <> "Term 2" ->
        Guarded.DefinitionList (<[term := defs]> definitions_) md
        = Guarded.DefinitionList definitions_ md)
  /\ (forall md,
        definitions_ !! "Term 1" = None -> definitions_ !! "Term 2" = None ->
        Guarded.DefinitionList definitions_ md = Ok tt md).
Proof.
  assert (Hdoes : forall d : gmap string (list string),
             does putG (Guarded.DefinitionList d)
                  (definition_block d "Term 1"
                   +:+ definition_block d "Term 2")).
  { intros d. unfold Guarded.DefinitionList.
    destruct (Nat.eqb (size d) 0) eqn:Hsize.
    - apply Nat.eqb_eq, map_size_empty_iff in Hsize. subst d.
      apply (does_ret putG putG_nil).
    - cbv zeta. unfold range. cbn [for_range].
      eapply does_eq.
      + apply (does_bind putG putG_putG);
          [apply (Guarded_definition_block_does d "Term 1"); discriminate|].
        apply (does_bind putG putG_putG);
          [apply (Guarded_definition_block_does d "Term 2"); discriminate|].
        apply (does_ret putG putG_nil).
      + now rewrite append_nil_r. }
  split; [apply Hdoes|]. split.
  - intros term defs md Ht1 Ht2. rewrite !Hdoes. unfold definition_block.
    now rewrite !lookup_insert_ne by done.
  - intros md H1 H2. rewrite Hdoes. unfold definition_block.
    rewrite H1, H2. simpl. now rewrite putG_nil.
Qed.

Lemma DefinitionList_two_terms_witness :
  Guarded.DefinitionList
    (<["Term 3" := ["dropped"]]> {[ "Term 1" := ["Definition 1.1"] ]})
    (Guarded.New Guarded.StandardMarkdown false)
  = Guarded.DefinitionList {[ "Term 1" := ["Definition 1.1"] ]}
      (Guarded.New Guarded.StandardMarkdown false).
Proof.
  apply (proj1 (proj2 (DefinitionList_two_terms
                         {[ "Term 1" := ["Definition 1.1"] ]})));
    discriminate.
Defined.

(** ** Documents built in parts *)

Lemma cat_app (l k : list string) : cat (l ++ k) = cat l +:+ cat k.
Proof.
  induction l as [|x l IH]; simpl; [reflexivity|].
  now rewrite IH, append_assoc.
Qed.

Lemma Guarded_replay (calls : list Guarded.Call) (md : Guarded.Markdown) :
  replay Guarded.exec calls md = putG (cat (map fragment calls)) md.
Proof.
  revert md. induction calls as [|c calls IH]; intros md.
  - simpl. now rewrite putG_nil.
  - unfold replay in *. cbn [foldl map cat foldr].
    rewrite IH, Guarded_exec_fragment. simpl. now rewrite putG_putG.
Qed.

(** X19.  In the package with the flags a document can be built in parts:
    the buffer after a sequence of calls is the buffer before it followed
    by the fragments of the calls in their order, so the calls of two
    sequences made on one fresh document give the two buffers of the
    sequences made on two fresh documents, one after the other; and
    [ColorText] returns after the calls what it returned before them.  In
    the package with the log this fails: a table of contents depends on
    the headings made before it. *)
Theorem documents_compose :
  (forall calls md,
      Guarded.content (replay Guarded.exec calls md)
      = Guarded.content md +:+ cat (map fragment calls))
  /\ (forall calls1 calls2 flavor useColor,
        Guarded.content
          (replay Guarded.exec (calls1 ++ calls2)
             (Guarded.New flavor useColor))
        = Guarded.content
            (replay Guarded.exec calls1 (Guarded.New flavor useColor))
          +:+ Guarded.content
                (replay Guarded.exec calls2 (Guarded.New flavor useColor)))
  /\ (forall calls md text color,
        returned (Guarded.ColorText text color
                    (replay Guarded.exec calls md))
        = returned (Guarded.ColorText text color md))
  /\ (exists calls1 calls2,
        Logged.content (replay Logged.exec (calls1 ++ calls2) Logged.New)
        <> Logged.content (replay Logged.exec calls1 Logged.New)
           +:+ Logged.content (replay Logged.exec calls2 Logged.New)).
Proof.
  split; [|split; [|split]].
  - intros calls md. now rewrite Guarded_replay.
  - intros calls1 calls2 flavor useColor.
    rewrite !Guarded_replay. simpl.
    now rewrite map_app, cat_app, !append_nil_l.
  - intros calls md text color. rewrite Guarded_replay.
    unfold Guarded.ColorText. simpl.
    now destruct (Guarded.useColor md).
  - exists [Logged.CHeading 1 "A" EmptyString], [Logged.CTableOfContents].
    vm_compute. discriminate.
Qed.

(** ** What a panic leaves behind *)

(** X20.  When [TaskList] of the package with the log panics, the buffer
    is left with a part of the list: the lines of the items that have a
    mark were written, the line of the first item without a mark and the
    closing empty line were not.  The heading log is untouched. *)
Theorem Logged_TaskList_partial_write (items : list string)
    (checked : list bool) (md : Logged.Markdown) :
  (length checked < length items)%nat ->
  Logged.TaskList items checked md
  = Panic (putL (lines_from (task_line_unguarded checked) 0%nat
                   (take (length checked) items)) md).
Proof.
  intros Hshort. unfold Logged.TaskList, range. cbv zeta.
  apply bind_panic.
  set (body := fun (i : nat) (item : string) =>
                 bind (index checked i) (fun c =>
                   Logged.WriteString
                     ("- [" +:+ (if c : bool then "x" else " ") +:+ "] "
                      +:+ item +:+ nl))).
  assert (Hbody : forall i item (md0 : Logged.Markdown),
             body i item md0
             = match checked !! i with
               | Some _ =>
                   Ok tt (putL (task_line_unguarded checked i item) md0)
               | None => Panic md0
               end).
  { intros i item md0. unfold body, bind, index, task_line_unguarded.
    now destruct (checked !! i). }
  assert (Hloop : forall (rest : list string) (i : nat) (md0 : Logged.Markdown),
             (i <= length checked < i + length rest)%nat ->
             for_range body i rest md0
             = Panic (putL (lines_from (task_line_unguarded checked) i
                              (take (length checked - i) rest)) md0)).
  { induction rest as [|item rest IH]; intros i md0 Hi; simpl in Hi; [lia|].
    cbn [for_range]. unfold bind at 1. rewrite Hbody.
    destruct (checked !! i) as [c|] eqn:Hc.
    - apply lookup_lt_Some in Hc as Hlt.
      rewrite IH by lia.
      replace (length checked - i)%nat with (S (length checked - S i)) by lia.
      cbn [take lines_from]. now rewrite putL_putL.
    - apply lookup_ge_None in Hc.
      replace (length checked - i)%nat with 0%nat by lia.
      simpl. now rewrite putL_nil. }
  rewrite (Hloop items 0%nat md) by lia. now rewrite Nat.sub_0_r.
Qed.

Lemma Logged_TaskList_partial_write_witness :
  Logged.TaskList ["A"; "B"; "C"] [true] Logged.New
  = Panic (Logged.mkMarkdown ("- [x] A" +:+ nl) []).
Proof.
  apply (Logged_TaskList_partial_write ["A"; "B"; "C"] [true] Logged.New).
  simpl. lia.
Defined.

(** ** The heading log across panics *)

Lemma emitted_app (calls calls' : list Logged.Call) :
  emitted (calls ++ calls') = emitted calls ++ emitted calls'.
Proof.
  induction calls as [|c calls IH]; [reflexivity|].
  rewrite <- app_comm_cons, Logged_emitted_cons, IH.
  now rewrite (Logged_emitted_cons c calls), app_assoc.
Qed.

(** X21.  A panic does not disturb the heading log: after any sequence of
    calls on a fresh document, also when calls of the sequence panicked and
    the program went on, the log holds the headings of the calls of
    [Heading], one for each call and in the order of the calls, and
    [TableOfContents] then lists exactly these. *)
Theorem heading_log_survives_panics (calls : list Logged.Call) :
  let md := replay Logged.exec calls Logged.New in
  Logged.headings md = emitted calls
  /\ Logged.TableOfContents md = Ok tt (putL (toc (emitted calls)) md).
Proof.
  cbv zeta.
  assert (Hlog : Logged.headings (replay Logged.exec calls Logged.New)
                 = emitted calls).
  { induction calls as [|c calls IH] using rev_ind; [reflexivity|].
    rewrite replay_snoc, Logged_exec_log, IH. now rewrite emitted_app. }
  split; [exact Hlog|].
  rewrite Logged_TableOfContents_does. now rewrite Hlog.
Qed.

(** ** Front matter in the two packages *)

Lemma front_pairs_lines (metadata : gmap string string) :
  cat (map (fun kv => fst kv +:+ ": " +:+ dquote +:+ snd kv +:+ dquote +:+ nl)
         (front_pairs metadata))
  = meta_line metadata "title" +:+ meta_line metadata "author"
    +:+ meta_line metadata "date".
Proof.
  unfold front_pairs, meta_line. simpl.
  destruct (metadata !! "title"), (metadata !! "author"),
    (metadata !! "date"); simpl;
    now rewrite ?append_nil_r, ?append_assoc.
Qed.

Lemma front_pairs_NoDup (metadata : gmap string string) :
  NoDup (front_pairs metadata).
Proof.
  unfold front_pairs. simpl.
  destruct (metadata !! "title"), (metadata !! "author"),
    (metadata !! "date"); simpl;
    repeat (apply NoDup_cons; split;
            [rewrite ?elem_of_cons, elem_of_nil; intuition congruence|]);
    apply NoDup_nil_2.
Qed.

(** X22.  The front matter of the package with the flags is one of the
    front matters of the package with the log: the one for the entries of
    [title], [author] and [date] yielded in this order.  When the map holds
    no other key, this order is one of the orders in which the range over
    the map may yield its entries. *)
Theorem FrontMatter_agrees (metadata : gmap string string) :
  same_fragment (Guarded.FrontMatter metadata)
                (Logged.FrontMatter (front_pairs metadata))
  /\ ((forall key, is_Some (metadata !! key) ->
                   key ∈ ["title"; "author"; "date"]) ->
      Logged.range_of metadata (front_pairs metadata)).
Proof.
  split.
  - eexists. split; [apply Guarded_FrontMatter_does|].
    eapply does_eq; [apply Logged_FrontMatter_does|].
    now rewrite front_pairs_lines, !append_assoc.
  - intros Hkeys. unfold Logged.range_of.
    apply NoDup_Permutation;
      [apply front_pairs_NoDup | apply NoDup_map_to_list|].
    intros [key value]. rewrite elem_of_map_to_list.
    unfold front_pairs. rewrite list_elem_of_omap. split.
    + intros [k [_ Hk]].
      destruct (metadata !! k) as [v|] eqn:Hv; [|discriminate].
      simpl in Hk. now injection Hk as <- <-.
    + intros Hv. exists key. split; [apply Hkeys; eauto|].
      now rewrite Hv.
Qed.

Lemma FrontMatter_agrees_witness :
  Logged.range_of {[ "title" := "T"; "date" := "D" ]}
    (front_pairs {[ "title" := "T"; "date" := "D" ]}).
Proof.
  apply (proj2 (FrontMatter_agrees {[ "title" := "T"; "date" := "D" ]})).
  intros key [value Hkey].
  destruct (decide (key = "title")) as [->|Ht];
    [rewrite !elem_of_cons; tauto|].
  rewrite lookup_insert_ne in Hkey by congruence.
  destruct (decide (key = "date")) as [->|Hd];
    [rewrite !elem_of_cons; tauto|].
  rewrite lookup_singleton_ne in Hkey by congruence. discriminate.
Defined.
